(** * maptiler-go: the multipart upload engine

    A shallow embedding of [client.go], [pool.go] and the types they use,
    followed by the properties of the range partitioner, the result
    collector, the orchestrator and the worker pool. *)

From Stdlib Require Import ZArith Lia.
From stdpp Require Import gmap strings list sorting pretty.

Local Open Scope Z_scope.

(** ** Signed 64-bit integers

    Go's [int64] is modelled as [Z]; every arithmetic operation of the
    source that can leave the range is followed by [wrap], which is what
    the Go specification prescribes for signed overflow. *)
Module Int64.

Definition min_int : Z := - 2 ^ 63.
Definition max_int : Z := 2 ^ 63 - 1.
Definition modulus : Z := 2 ^ 64.

Definition in_range (z : Z) : Prop := min_int <= z <= max_int.

Definition wrap (z : Z) : Z := (z + 2 ^ 63) mod modulus - 2 ^ 63.

Definition mul (a b : Z) : Z := wrap (a * b).
Definition sub (a b : Z) : Z := wrap (a - b).

End Int64.

(** ** The range partitioner ([getRange], client.go) *)

Definition getRange (idx partSize fileSize : Z) : Z * Z :=
  if partSize <=? 0 then (0, 0)
  else
    let off := Int64.mul idx partSize in
    if off >=? fileSize then (off, 0)
    else
      let remaining := Int64.sub fileSize off in
      if remaining <? partSize then (off, remaining) else (off, partSize).

(** The number of parts of a file of [S] bytes cut into parts of [P]
    bytes: the mathematical [ceil (S / P)]. *)
Definition ceil_div (S P : Z) : Z := (S + P - 1) / P.

(** The lengths [getRange] yields for the indices [0 .. n-1]. *)
Fixpoint lengths_upto (n : nat) (partSize fileSize : Z) : list Z :=
  match n with
  | O => []
  | S n' => lengths_upto n' partSize fileSize
            ++ [snd (getRange (Z.of_nat n') partSize fileSize)]
  end.

Definition sum_Z (l : list Z) : Z := foldr Z.add 0 l.

(** ** Errors

    Go error values, with the wrapping structure [errors.As] walks.
    [fmt.Errorf] with one or two [%w] verbs keeps the text around the
    wrapped errors; an error made outside this package (os, net/http,
    encoding/json, context) carries the class the code tests it for. *)

Inductive errorKind : Type :=
| ErrNotExist | ErrPermission | ErrCanceled | ErrDeadlineExceeded
| ErrSyntax | ErrOther.

#[warnings="-register-all"]
Inductive error : Type :=
| errorString (msg : string)
| foreignError (kind : errorKind) (msg : string)
| wrapError (pre : string) (err : error) (post : string)
| wrapErrors (pre : string) (err1 : error) (mid : string) (err2 : error)
             (post : string)
| UploadFailedError (ID : string) (Err : option error).

(** The [Error()] method.  [UploadFailedError.Error] formats a nil [Err]
    with [%s]. *)
Fixpoint Error (e : error) : string :=
  match e with
  | errorString msg => msg
  | foreignError _ msg => msg
  | wrapError pre err post => pre +:+ Error err +:+ post
  | wrapErrors pre err1 mid err2 post =>
      pre +:+ Error err1 +:+ mid +:+ Error err2 +:+ post
  | UploadFailedError ID Err =>
      "upload " +:+ ID +:+ " failed, err: "
      +:+ match Err with Some err => Error err | None => "%!s(<nil>)" end
  end.

(** The errors [errors.Is] and [errors.As] visit, depth first.
    [UploadFailedError] has no [Unwrap] method, so the walk stops there. *)
Fixpoint chain (e : error) : list error :=
  e :: match e with
       | wrapError _ err _ => chain err
       | wrapErrors _ err1 _ err2 _ => chain err1 ++ chain err2
       | _ => []
       end.

(** [errors.As(err, &uerr)] for [var uerr UploadFailedError]: the first
    [UploadFailedError] of the walk, as its fields. *)
Fixpoint errors_As (e : error) : option (string * option error) :=
  match e with
  | UploadFailedError ID Err => Some (ID, Err)
  | wrapError _ err _ => errors_As err
  | wrapErrors _ err1 _ err2 _ =>
      match errors_As err1 with
      | Some u => Some u
      | None => errors_As err2
      end
  | _ => None
  end.

Definition os_IsNotExist (err : option error) : bool :=
  match err with
  | Some (foreignError ErrNotExist _) => true
  | _ => false
  end.

(** ** Data model (the types file and client.go) *)

Definition serviceIngestUpdate : string := "/datasets/:id/ingest".
Definition serviceIngestCreate : string := "/datasets/ingest".
Definition serviceIngestGet : string := "/datasets/ingest/:id".
Definition serviceIngestCancel : string := "/datasets/ingest/:id/cancel".
Definition serviceIngestProcess : string := "/datasets/ingest/:id/process".

Definition ingestUploadTypeS3MultiPart : string := "s3_multipart".

Record MapTilerError := { Message : string }.

Record uploadPart := { part_PartID : Z; part_URL : string }.

Record uploadTaskResponse := { PartID : Z; ETag : string }.

(** [uploadTask]; the [RespCh] field is the one result channel of the
    upload, which [Client.upload] below keeps as the list of delivered
    responses. *)
Record uploadTask := {
  task_part : uploadPart;
  FilePath : string;
  Offset : Z;
  Length : Z
}.

Record upload := {
  PartSize : Z;
  Parts : list uploadPart;
  upload_Type : string
}.

(** [Progress] is a float64 the client never computes on; it is kept as
    its 64-bit pattern. *)
Record IngestResponse := {
  ID : string;
  DocumentID : string;
  State : string;
  Filename : string;
  Size : Z;
  Progress : Z;
  ir_Error : MapTilerError;
  Upload : upload;
  UploadURL : string
}.

Record UploadResult := {
  result_ID : string;
  result_Type : string;
  result_Parts : list uploadTaskResponse
}.

Record ingestRequest := {
  req_ID : string;
  req_Filename : string;
  req_Size : Z;
  SupportedUploadTypes : list string
}.

(** Zero values, [IngestResponse{}] and [UploadResult{}]. *)
Definition IngestResponse_zero : IngestResponse :=
  {| ID := ""; DocumentID := ""; State := ""; Filename := ""; Size := 0;
     Progress := 0; ir_Error := {| Message := "" |};
     Upload := {| PartSize := 0; Parts := []; upload_Type := "" |};
     UploadURL := "" |}.

Definition UploadResult_zero : UploadResult :=
  {| result_ID := ""; result_Type := ""; result_Parts := [] |}.

Definition newUploadResult (id : string) (parts : list uploadTaskResponse)
  : UploadResult :=
  {| result_ID := id; result_Type := ingestUploadTypeS3MultiPart;
     result_Parts := parts |}.

Definition newIngestRequest (id fn : string) (size : Z) : ingestRequest :=
  {| req_ID := id; req_Filename := fn; req_Size := size;
     SupportedUploadTypes := [ingestUploadTypeS3MultiPart] |}.

(** ** The result collector and the final ordering ([Client.upload]) *)

(** [fmt.Sprint] of an int64: its decimal form. *)
Definition fmt_Sprint (z : Z) : string := pretty z.

(** [for r := range respCh { results[fmt.Sprint(r.PartID)] = r }] over the
    responses in their order of arrival. *)
Definition collect (delivered : list uploadTaskResponse)
  : gmap string uploadTaskResponse :=
  foldl (fun results r => <[fmt_Sprint (PartID r) := r]> results) ∅ delivered.

(** The comparison function handed to [slices.SortFunc]. *)
Definition cmpPartID (a b : uploadTaskResponse) : Z :=
  if PartID a <? PartID b then -1
  else if PartID a >? PartID b then 1
  else 0.

(** [slices.SortFunc]: a sort by [cmp].  The library's algorithm is not
    stable; [SortFunc_unique] below shows that on the lists [Client.upload]
    sorts every sorting algorithm returns the same list. *)
Definition le_by {A} (cmp : A -> A -> Z) : relation A :=
  fun a b => cmp a b <= 0.

#[global] Instance le_by_dec {A} (cmp : A -> A -> Z) a b :
  Decision (le_by cmp a b) := Z_le_dec (cmp a b) 0.

Definition slices_SortFunc {A} (cmp : A -> A -> Z) (l : list A) : list A :=
  merge_sort (le_by cmp) l.

(** The generator loop of [Client.upload]: one task per part, until
    [getRange] yields a length [<= 0]. *)
Fixpoint generate (i : Z) (parts : list uploadPart) (partSize fileSize : Z)
    (fp : string) : list uploadTask :=
  match parts with
  | [] => []
  | p :: parts' =>
      let '(offset, length) := getRange i partSize fileSize in
      if length <=? 0 then []
      else {| task_part := {| part_PartID := part_PartID p; part_URL := part_URL p |};
              FilePath := fp; Offset := offset; Length := length |}
           :: generate (i + 1) parts' partSize fileSize fp
  end.

(** ** External collaborators

    Requests as the code builds them for [rip]: method, route (or part
    URL), the [:id] parameter and the body. *)

Inductive body : Type :=
| NoBody
| IngestBody (r : ingestRequest)
| ResultBody (r : UploadResult)
| SectionBody (fp : string) (offset length : Z).

Record Request := {
  Method : string;
  URL : string;
  Params : option string;
  Body : body
}.

Record Response := {
  StatusCode : Z;
  IsError : bool;
  RespBody : string
}.

Record FileInfo := { Name : string; FileSize : Z; IsDir : bool }.

(** What the three concurrent roles of one [Client.upload] leave behind:
    the tasks whose PUT request the workers issued, the responses that
    arrived on the result channel, in arrival order, and the value of
    [eg.Wait()]. *)
Record PoolRun := {
  processed : list uploadTask;
  delivered : list uploadTaskResponse;
  waitErr : option error
}.

(** The world the client runs in.  [Execute] answers a request given the
    requests issued so far; [maps_Values] is Go's unspecified map iteration
    order, some permutation of the values.  The errors of [rip] and of
    [encoding/json] are made outside this package: they neither are nor wrap
    an [UploadFailedError]. *)
Class Env := {
  os_Stat : string -> FileInfo + error;
  Execute : list Request -> Request -> error + Response;
  json_Unmarshal : string -> IngestResponse * option error;
  run_pool : list Request -> list uploadTask -> PoolRun;
  maps_Values : gmap string uploadTaskResponse -> list uploadTaskResponse;
  maps_Values_perm : forall m, maps_Values m ≡ₚ (map_to_list m).*2;
  Execute_foreign : forall log req err,
    Execute log req = inl err -> errors_As err = None;
  json_Unmarshal_foreign : forall body ir err,
    json_Unmarshal body = (ir, Some err) -> errors_As err = None
}.

(** ** Computations that issue requests and may panic *)

Inductive outcome (A : Type) : Type :=
| Ret (a : A)
| Panic (msg : string).
Arguments Ret {A} a.
Arguments Panic {A} msg.

(** What a [Client] and the service share over time: the requests issued
    so far, and whether the [tasks] channel of the client's one pool (made
    in [New]) has been closed by [Stop]. *)
Record ClientState := { issued : list Request; wp_closed : bool }.

Definition issue (reqs : list Request) (st : ClientState) : ClientState :=
  {| issued := issued st ++ reqs; wp_closed := wp_closed st |}.

(** A computation maps the state to its outcome and the new state. *)
Definition M (A : Type) : Type := ClientState -> outcome A * ClientState.

Definition ret {A} (a : A) : M A := fun st => (Ret a, st).

Definition panic {A} (msg : string) : M A := fun st => (Panic msg, st).

Definition bind {A B} (m : M A) (k : A -> M B) : M B :=
  fun st =>
    match m st with
    | (Ret a, st') => k a st'
    | (Panic msg, st') => (Panic msg, st')
    end.

Notation "'let*' x ':=' m 'in' k" := (bind m (fun x => k))
  (at level 10, x pattern, m at level 100, k at level 200).

(** ** The client (client.go) *)

(** [%q] of a string: the string between double quotes (the escaping of
    special characters inside is left out). *)
Definition fmt_q (s : string) : string :=
  let dq := String (Ascii.ascii_of_nat 34) EmptyString in dq +:+ s +:+ dq.

(** [fileInfo], returning the pair the Go function returns.  [os.Stat]
    yields either a [FileInfo] and a nil error, or a nil [FileInfo] and an
    error. *)
Definition fileInfo `{Env} (fp : string) : option FileInfo * option error :=
  match os_Stat fp with
  | inl info =>
      if IsDir info
      then (None, Some (errorString
              ("expected file " +:+ fmt_q fp
               +:+ " to exist, but it is a directory")))
      else if os_IsNotExist None
      then (None, Some (errorString
              ("expected file " +:+ fmt_q fp +:+ " to exist, but it does not")))
      else (Some info, None)
  | inr err =>
      if os_IsNotExist (Some err)
      then (None, Some (errorString
              ("expected file " +:+ fmt_q fp +:+ " to exist, but it does not")))
      else (None, None)
  end.

Module Client.
Section Client.
Context `{Env}.

(** [req.Execute]: the request is issued and the world answers. *)
Definition execute (req : Request) : M (error + Response) :=
  fun st => (Ret (Execute (issued st) req), issue [req] st).

Definition cancel_request (id : string) : Request :=
  {| Method := "POST"; URL := serviceIngestCancel; Params := Some id;
     Body := NoBody |}.

Definition cancel (id : string) : M (IngestResponse * option error) :=
  let* r := execute (cancel_request id) in
  match r with
  | inl err =>
      ret (IngestResponse_zero, Some (wrapError "canceling upload: " err ""))
  | inr resp =>
      if IsError resp
      then ret (IngestResponse_zero,
                Some (errorString "canceling upload: %!w(<nil>)"))
      else
        let '(ir, uerr) := json_Unmarshal (RespBody resp) in
        match uerr with
        | Some uerr => ret (ir, Some (wrapError "canceling upload: " uerr ""))
        | None => ret (ir, None)
        end
  end.

(** The PUT request a worker issues for a task ([uploadProcessor.Process]). *)
Definition put_request (t : uploadTask) : Request :=
  {| Method := "PUT"; URL := part_URL (task_part t); Params := None;
     Body := SectionBody (FilePath t) (Offset t) (Length t) |}.

(** [upload], for the runs in which [eg.Wait()] returns.  The pool is the
    client's own: its [tasks] channel is closed by the [Stop] of the first
    upload, so a later upload panics, in [Enqueue] if there is a task to
    send and in [Stop] otherwise. *)
Definition upload (ir : IngestResponse) (fp : string)
  : M (UploadResult * option error) :=
  fun st =>
    let parts := Parts (Upload ir) in
    let partSize := PartSize (Upload ir) in
    let fileSize := Size ir in
    let tasks := generate 0 parts partSize fileSize fp in
    if wp_closed st
    then (Panic match tasks with
                | [] => "close of closed channel"
                | _ :: _ => "send on closed channel"
                end, st)
    else
      let run := run_pool (issued st) tasks in
      let st' := {| issued := issued st ++ (put_request <$> processed run);
                    wp_closed := true |} in
      let results := collect (delivered run) in
      match waitErr run with
      | Some gErr =>
          (Ret (UploadResult_zero,
                Some (wrapError "waiting for error group to finish: " gErr "")),
           st')
      | None =>
          let responses := maps_Values results in
          (Ret (newUploadResult (ID ir) (slices_SortFunc cmpPartID responses),
                None),
           st')
      end.

(** The request [ingest] builds: an update when the request names a
    dataset, a create otherwise. *)
Definition ingest_request (request : ingestRequest) : Request :=
  if decide (req_ID request = "")
  then {| Method := "POST"; URL := serviceIngestCreate; Params := None;
          Body := IngestBody request |}
  else {| Method := "POST"; URL := serviceIngestUpdate;
          Params := Some (req_ID request); Body := IngestBody request |}.

Definition ingest (request : ingestRequest)
  : M (IngestResponse * option error) :=
  let* r := execute (ingest_request request) in
  match r with
  | inl err => ret (IngestResponse_zero, Some err)
  | inr resp =>
      if IsError resp
      then ret (IngestResponse_zero,
                Some (errorString
                  ("request failed with " +:+ fmt_Sprint (StatusCode resp))))
      else
        let '(ir, uerr) := json_Unmarshal (RespBody resp) in
        match uerr with
        | Some uerr => ret (IngestResponse_zero, Some uerr)
        | None =>
            if decide (State ir = "failed")
            then ret (IngestResponse_zero,
                      Some (UploadFailedError (ID ir) None))
            else ret (ir, None)
        end
  end.

Definition finalize_request (ur : UploadResult) : Request :=
  {| Method := "POST"; URL := serviceIngestProcess;
     Params := Some (result_ID ur); Body := ResultBody ur |}.

Definition finalize (ur : UploadResult) : M (IngestResponse * option error) :=
  let* r := execute (finalize_request ur) in
  match r with
  | inl _ =>
      ret (IngestResponse_zero, Some (UploadFailedError (result_ID ur) None))
  | inr resp =>
      if IsError resp
      then ret (IngestResponse_zero,
                Some (errorString
                  ("request failed with " +:+ fmt_Sprint (StatusCode resp))))
      else
        let '(ir, uerr) := json_Unmarshal (RespBody resp) in
        match uerr with
        | Some uerr => ret (IngestResponse_zero, Some uerr)
        | None =>
            if decide (State ir = "failed")
            then ret (IngestResponse_zero,
                      Some (UploadFailedError (result_ID ur) None))
            else ret (ir, None)
        end
  end.

(** [process]; [info.Name()] on the nil [FileInfo] that [fileInfo] returns
    with a nil error is a nil dereference. *)
Definition process (id fp : string) : M (IngestResponse * option error) :=
  let '(info, err) := fileInfo fp in
  match err with
  | Some err => ret (IngestResponse_zero, Some err)
  | None =>
      match info with
      | None => panic "invalid memory address or nil pointer dereference"
      | Some info =>
          let req := newIngestRequest id (Name info) (FileSize info) in
          let* (resp, err) := ingest req in
          match err with
          | Some err => ret (resp, Some err)
          | None =>
              let* (uresp, err) := upload resp fp in
              match err with
              | Some err =>
                  ret (IngestResponse_zero,
                       Some (UploadFailedError (ID resp) (Some err)))
              | None =>
                  let* (presp, err) := finalize uresp in
                  match err with
                  | Some err =>
                      ret (IngestResponse_zero,
                           Some (UploadFailedError (ID resp) (Some err)))
                  | None => ret (presp, None)
                  end
              end
          end
      end
  end.

Definition processorFn : Type :=
  string -> string -> M (IngestResponse * option error).

Definition withCancel (run : processorFn) (id fp : string)
  : M (IngestResponse * option error) :=
  let* (ir, err) := run id fp in
  match err with
  | None => ret (ir, None)
  | Some err =>
      match errors_As err with
      | Some (uerr_ID, _) =>
          let* (ir', cerr) := cancel uerr_ID in
          match cerr with
          | Some cerr =>
              ret (ir', Some (wrapErrors "upload failed: " err
                                "; cancel failed: " cerr ""))
          | None => ret (ir, Some (wrapError "upload failed with: " err ""))
          end
      | None => ret (ir, Some (wrapError "upload failed with: " err ""))
      end
  end.

Definition Create (fp : string) : M (IngestResponse * option error) :=
  withCancel process "" fp.

Definition Update (id fp : string) : M (IngestResponse * option error) :=
  withCancel process id fp.

Definition Cancel (id : string) : M (IngestResponse * option error) :=
  cancel id.

End Client.
End Client.

(** A cancel call to the service, and the ID it names. *)
Definition cancel_id (req : Request) : option string :=
  if decide (Method req = "POST" /\ URL req = serviceIngestCancel)
  then Params req else None.

Definition cancel_calls (log : list Request) : list string :=
  omap cancel_id log.

(** ** The worker pool (pool.go)

    The pool is run by several goroutines at once: the caller of [Start],
    the workers it spawns, the producer calling [Enqueue] and [Stop], and
    whoever cancels the scope.  Each atomic action of one of them is an
    [event]; [step] is the effect of one event on the pool, and a schedule
    is a list of events.  A worker sits in the [select] of [process]
    ([Idle]), runs [Process] on a task ([Busy]), or has returned. *)
Module pool.

Definition defaultQueueSize : Z := 100.
Definition defaultConcurrency : Z := 10.

Record poolConfig := { queueSize : Z; concurrency : Z }.

Definition poolOption : Type := poolConfig -> poolConfig.

Definition withPoolConcurrency (c : Z) : poolOption :=
  fun config => {| queueSize := queueSize config; concurrency := c |}.

Definition withPoolQueueSize (qs : Z) : poolOption :=
  fun config => {| queueSize := qs; concurrency := concurrency config |}.

(** [context.Canceled], the error of a context cancelled by the group. *)
Definition context_Canceled : error :=
  foreignError ErrCanceled "context canceled".

(** Why a worker's [process] returned: [!ok] on the closed queue,
    [ctx.Done()], or an error of [Process]. *)
Inductive exit : Type :=
| Drained
| Cancelled (err : error)
| Failed (err : error).

Definition exit_err (x : exit) : option error :=
  match x with
  | Drained => None
  | Cancelled err => Some err
  | Failed err => Some err
  end.

Section pool.
Context {T : Type}.

Inductive worker : Type :=
| Idle
| Busy (t : T)
| Returned (err : option error).

(** The [tasks] channel: its buffer and whether it is closed. *)
Record chan := { buf : list T; closed : bool }.

(** The pool, the state of the one [Start] it serves ([scope] is [Err()] of
    the context given to [Start], [ctx] that of the group's context the
    workers select on, [group_err] the error the errgroup keeps), and the
    history of worker returns, oldest first. *)
Record pool := {
  config : poolConfig;
  tasks : chan;
  started : bool;
  scope : option error;
  ctx : option error;
  workers : list worker;
  group_err : option error;
  returned : list (nat * exit)
}.

(** [newPool]; [make] panics on a negative buffer size. *)
Definition newPool (options : list poolOption) : outcome pool :=
  let config :=
    foldl (fun config o => o config)
          {| queueSize := defaultQueueSize; concurrency := defaultConcurrency |}
          options in
  if queueSize config <? 0 then Panic "makechan: size out of range"
  else Ret {| config := config; tasks := {| buf := []; closed := false |};
              started := false; scope := None; ctx := None; workers := [];
              group_err := None; returned := [] |}.

Inductive event : Type :=
| Cancel (err : error)
| CallStart
| CallStop
| CallEnqueue (t : T) (receiver : option nat)
| Receive (w : nat)
| SeeClosed (w : nat)
| SeeDone (w : nat)
| Processed (w : nat) (err : option error).

Inductive result : Type :=
| Next (p : pool)
| Blocked
| Panicked (msg : string).

Definition set_tasks (c : chan) (p : pool) : pool :=
  {| config := config p; tasks := c; started := started p; scope := scope p;
     ctx := ctx p; workers := workers p; group_err := group_err p;
     returned := returned p |}.

Definition set_worker (w : nat) (x : worker) (p : pool) : pool :=
  {| config := config p; tasks := tasks p; started := started p;
     scope := scope p; ctx := ctx p; workers := <[w := x]> (workers p);
     group_err := group_err p; returned := returned p |}.

(** The scope given to [Start] is cancelled with [err]; the group's context
    is its child. *)
Definition cancel_scope (err : error) (p : pool) : pool :=
  {| config := config p; tasks := tasks p; started := started p;
     scope := match scope p with Some e => Some e | None => Some err end;
     ctx := match ctx p with Some e => Some e | None => Some err end;
     workers := workers p; group_err := group_err p; returned := returned p |}.

(** A worker function returns inside [g.Go]: the first non-nil error is
    kept and cancels the group's context. *)
Definition worker_returns (w : nat) (x : exit) (p : pool) : pool :=
  {| config := config p; tasks := tasks p; started := started p;
     scope := scope p;
     ctx := match group_err p, exit_err x, ctx p with
            | None, Some _, None => Some context_Canceled
            | _, _, c => c
            end;
     workers := <[w := Returned (exit_err x)]> (workers p);
     group_err := match group_err p with
                  | Some e => Some e
                  | None => exit_err x
                  end;
     returned := returned p ++ [(w, x)] |}.

(** [Start]: spawn [concurrency] workers under the group's context. *)
Definition Start (p : pool) : result :=
  if started p then Blocked
  else Next {| config := config p; tasks := tasks p; started := true;
               scope := scope p; ctx := ctx p;
               workers := replicate (Z.to_nat (concurrency (config p))) Idle;
               group_err := group_err p; returned := returned p |}.

(** [Stop]: [close(wp.tasks)]. *)
Definition Stop (p : pool) : result :=
  if closed (tasks p) then Panicked "close of closed channel"
  else Next (set_tasks {| buf := buf (tasks p); closed := true |} p).

(** [Enqueue]: [wp.tasks <- t].  The send hands the task to a worker
    waiting on the empty queue, or appends it to the buffer, or blocks. *)
Definition Enqueue (t : T) (receiver : option nat) (p : pool) : result :=
  if closed (tasks p) then Panicked "send on closed channel"
  else
    match receiver with
    | Some w =>
        match workers p !! w, buf (tasks p) with
        | Some Idle, [] => Next (set_worker w (Busy t) p)
        | _, _ => Blocked
        end
    | None =>
        if Z.of_nat (length (buf (tasks p))) <? queueSize (config p)
        then Next (set_tasks {| buf := buf (tasks p) ++ [t]; closed := false |} p)
        else Blocked
    end.

(** One turn of the loop of [process] for worker [w]. *)
Definition process_receive (w : nat) (p : pool) : result :=
  match workers p !! w, buf (tasks p) with
  | Some Idle, t :: rest =>
      Next (set_worker w (Busy t)
              (set_tasks {| buf := rest; closed := closed (tasks p) |} p))
  | _, _ => Blocked
  end.

Definition process_closed (w : nat) (p : pool) : result :=
  match workers p !! w, buf (tasks p), closed (tasks p) with
  | Some Idle, [], true => Next (worker_returns w Drained p)
  | _, _, _ => Blocked
  end.

Definition process_done (w : nat) (p : pool) : result :=
  match workers p !! w, ctx p with
  | Some Idle, Some err => Next (worker_returns w (Cancelled err) p)
  | _, _ => Blocked
  end.

Definition process_processed (w : nat) (err : option error) (p : pool)
  : result :=
  match workers p !! w with
  | Some (Busy _) =>
      match err with
      | Some err => Next (worker_returns w (Failed err) p)
      | None => Next (set_worker w Idle p)
      end
  | _ => Blocked
  end.

Definition step (p : pool) (ev : event) : result :=
  match ev with
  | Cancel err => Next (cancel_scope err p)
  | CallStart => Start p
  | CallStop => Stop p
  | CallEnqueue t receiver => Enqueue t receiver p
  | Receive w => process_receive w p
  | SeeClosed w => process_closed w p
  | SeeDone w => process_done w p
  | Processed w err => process_processed w err p
  end.

Fixpoint run (p : pool) (evs : list event) : result :=
  match evs with
  | [] => Next p
  | ev :: evs' =>
      match step p ev with
      | Next p' => run p' evs'
      | r => r
      end
  end.

Definition is_returned (x : worker) : bool :=
  match x with Returned _ => true | _ => false end.

(** What [Start] returns once [g.Wait()] is through: every worker has
    returned, and the value is the error the group kept. *)
Definition Start_returns (p : pool) : option (option error) :=
  if started p && forallb is_returned (workers p)
  then Some (group_err p) else None.

(** The first return in the history that carries an error. *)
Fixpoint first_failure (l : list (nat * exit)) : option exit :=
  match l with
  | [] => None
  | (_, Drained) :: l' => first_failure l'
  | (_, x) :: _ => Some x
  end.

Definition is_task_error (ev : event) : bool :=
  match ev with Processed _ (Some _) => true | _ => false end.

End pool.

Arguments pool : clear implicits.
Arguments chan : clear implicits.
Arguments worker : clear implicits.
Arguments event : clear implicits.
Arguments result : clear implicits.

End pool.

(* ================================================================== *)
(** * Properties *)
(* ================================================================== *)

(** ** Facts about 64-bit arithmetic *)
Module Int64Facts.
Import Int64.

Lemma wrap_in_range z : in_range (wrap z).
Proof.
  unfold in_range, wrap, min_int, max_int, modulus.
  pose proof (Z.mod_pos_bound (z + 2 ^ 63) (2 ^ 64) ltac:(lia)). lia.
Qed.

Lemma wrap_small z : in_range z -> wrap z = z.
Proof.
  unfold in_range, wrap, min_int, max_int, modulus. intros Hz.
  rewrite Z.mod_small by lia. lia.
Qed.

Lemma mul_exact a b : in_range (a * b) -> mul a b = a * b.
Proof. apply wrap_small. Qed.

Lemma sub_exact a b : in_range (a - b) -> sub a b = a - b.
Proof. apply wrap_small. Qed.

Lemma max_int_eq : max_int = 9223372036854775807.
Proof. reflexivity. Qed.

Lemma min_int_eq : min_int = -9223372036854775808.
Proof. reflexivity. Qed.

End Int64Facts.

(** ** The range partitioner *)

Example getRange_35_10 :
  map (fun i => getRange i 10 35) [0; 1; 2; 3; 4]
  = [(0, 10); (10, 10); (20, 10); (30, 5); (40, 0)].
Proof. reflexivity. Qed.

(** All branches of [getRange], with the offset and the remainder as the
    64-bit operations of the source compute them. *)
Lemma getRange_unfold idx partSize fileSize :
  getRange idx partSize fileSize =
    if decide (partSize <= 0) then (0, 0)
    else if decide (fileSize <= Int64.mul idx partSize)
         then (Int64.mul idx partSize, 0)
         else (Int64.mul idx partSize,
               Z.min (Int64.sub fileSize (Int64.mul idx partSize)) partSize).
Proof.
  unfold getRange.
  destruct (Z.leb_spec partSize 0); [by rewrite decide_True by lia|].
  rewrite decide_False by lia. cbv zeta.
  destruct (Z.geb_spec (Int64.mul idx partSize) fileSize).
  - by rewrite decide_True by lia.
  - rewrite decide_False by lia.
    destruct (Z.ltb_spec (Int64.sub fileSize (Int64.mul idx partSize)) partSize).
    + by rewrite Z.min_l by lia.
    + by rewrite Z.min_r by lia.
Qed.

(** When neither the product nor the difference leaves the 64-bit range,
    [getRange] is the mathematical partition function. *)
Lemma getRange_exact idx partSize fileSize :
  0 < partSize -> 0 <= idx -> idx * partSize <= Int64.max_int ->
  0 <= fileSize <= Int64.max_int ->
  getRange idx partSize fileSize =
    if decide (fileSize <= idx * partSize) then (idx * partSize, 0)
    else (idx * partSize, Z.min (fileSize - idx * partSize) partSize).
Proof.
  intros HP Hidx Hmul HS. rewrite getRange_unfold.
  destruct (decide (partSize <= 0)) as [|_]; [lia|].
  assert (Hoff : 0 <= idx * partSize) by nia.
  rewrite Int64Facts.mul_exact
    by (unfold Int64.in_range; rewrite Int64Facts.min_int_eq; lia).
  destruct (decide (fileSize <= idx * partSize)); [done|].
  rewrite Int64Facts.sub_exact; [done|].
  unfold Int64.in_range. rewrite Int64Facts.min_int_eq. lia.
Qed.

Lemma ceil_div_gt idx partSize fileSize :
  0 < partSize -> (idx < ceil_div fileSize partSize <-> idx * partSize < fileSize).
Proof.
  intros HP. unfold ceil_div. split; intros H.
  - assert (idx + 1 <= (fileSize + partSize - 1) / partSize) by lia.
    assert ((idx + 1) * partSize <= fileSize + partSize - 1); [|lia].
    transitivity (partSize * ((fileSize + partSize - 1) / partSize)).
    + nia.
    + apply Z.mul_div_le. lia.
  - assert (idx + 1 <= (fileSize + partSize - 1) / partSize); [|lia].
    apply Z.div_le_lower_bound; lia.
Qed.

Lemma sum_Z_app l1 l2 : sum_Z (l1 ++ l2) = sum_Z l1 + sum_Z l2.
Proof. unfold sum_Z. induction l1 as [|x l1 IH]; simpl; lia. Qed.

Lemma sum_Z_nonzero l : sum_Z (filter (fun z => z <> 0) l) = sum_Z l.
Proof.
  induction l as [|x l IH]; [done|].
  rewrite filter_cons. case_decide; unfold sum_Z in *; simpl; lia.
Qed.

(** The lengths of the first [n] ranges add up to the part of the file they
    cover, as long as the last offset is representable. *)
Lemma sum_lengths_upto (n : nat) partSize fileSize :
  0 < partSize -> 0 <= fileSize <= Int64.max_int ->
  (Z.of_nat n - 1) * partSize <= Int64.max_int ->
  sum_Z (lengths_upto n partSize fileSize) = Z.min fileSize (Z.of_nat n * partSize).
Proof.
  intros HP HS. induction n as [|n IH]; intros Hn.
  - simpl. unfold sum_Z. simpl. lia.
  - cbn [lengths_upto]. rewrite sum_Z_app, IH by lia.
    rewrite getRange_exact by lia.
    unfold sum_Z. case_decide; simpl; lia.
Qed.

(** C2 (as amended): for a file of [S] bytes and parts of [P > 0] bytes,
    over the indices whose offset [idx * P] is representable in 64 bits, the
    length is nonzero exactly for [idx < ceil (S / P)], a nonzero length
    lies in (0, P], and the nonzero lengths of the indices [0 .. n-1], for
    any [n >= ceil (S / P)], add up to [S]. *)
Theorem getRange_partition (S P : Z) :
  0 <= S <= Int64.max_int -> 0 < P <= Int64.max_int ->
  (forall idx, 0 <= idx -> idx * P <= Int64.max_int ->
     (snd (getRange idx P S) <> 0 <-> idx < ceil_div S P) /\
     (snd (getRange idx P S) <> 0 -> 0 < snd (getRange idx P S) <= P)) /\
  (forall n : nat, ceil_div S P <= Z.of_nat n ->
     (Z.of_nat n - 1) * P <= Int64.max_int ->
     sum_Z (filter (fun z => z <> 0) (lengths_upto n P S)) = S).
Proof.
  intros HS HP. split.
  - intros idx Hidx Hmul. rewrite getRange_exact by lia.
    rewrite ceil_div_gt by lia.
    case_decide; simpl; lia.
  - intros n Hn Hmul. rewrite sum_Z_nonzero, sum_lengths_upto by lia.
    assert (~ Z.of_nat n < ceil_div S P) as Hlt by lia.
    rewrite ceil_div_gt in Hlt by lia. lia.
Qed.

Lemma getRange_partition_witness :
  (snd (getRange 3 10 35) <> 0 <-> 3 < ceil_div 35 10) /\
  sum_Z (filter (fun z => z <> 0) (lengths_upto 6 10 35)) = 35.
Proof.
  assert (H1 : 0 <= 35 <= Int64.max_int) by (rewrite Int64Facts.max_int_eq; lia).
  assert (H2 : 0 < 10 <= Int64.max_int) by (rewrite Int64Facts.max_int_eq; lia).
  destruct (getRange_partition 35 10 H1 H2) as [Hidx Hsum]. split.
  - apply (Hidx 3); [lia | rewrite Int64Facts.max_int_eq; lia].
  - apply (Hsum 6%nat); [vm_compute; discriminate | rewrite Int64Facts.max_int_eq; lia].
Defined.

(** C2 (as stated) fails once the offset overflows: with parts of [2^62]
    bytes the 64-bit product [2 * 2^62] wraps to [-2^63], so index 2 of a
    10-byte file gets a nonzero (and negative) length although
    [ceil (10 / 2^62) = 1]. *)
Lemma getRange_partition_overflow :
  0 <= 10 /\ 0 < 2 ^ 62 <= Int64.max_int /\ ceil_div 10 (2 ^ 62) = 1 /\
  getRange 2 (2 ^ 62) 10 = (- 2 ^ 63, - 2 ^ 63 + 10) /\
  ~ (snd (getRange 2 (2 ^ 62) 10) <> 0 <-> 2 < ceil_div 10 (2 ^ 62)) /\
  ~ (snd (getRange 2 (2 ^ 62) 10) <> 0 ->
     0 < snd (getRange 2 (2 ^ 62) 10) <= 2 ^ 62).
Proof.
  assert (Hg : getRange 2 (2 ^ 62) 10 = (- 2 ^ 63, - 2 ^ 63 + 10))
    by (vm_compute; reflexivity).
  assert (Hc : ceil_div 10 (2 ^ 62) = 1) by (vm_compute; reflexivity).
  rewrite Hg, Hc. cbn [snd].
  repeat split; try (vm_compute; congruence).
  - intros [H _]. assert (2 < 1); [apply H|]; lia.
  - intros H. assert (0 < - 2 ^ 63 + 10 <= 2 ^ 62); [apply H|]; lia.
Qed.

(** C3 (as amended): [getRange] returns (0, 0) for a part size [<= 0];
    otherwise, when the product [idx * partSize] fits in 64 bits, it
    returns the offset [idx * partSize], with the length 0 when the offset
    is [>= fileSize], and with the length [min (fileSize - offset) partSize]
    when the offset is below [fileSize] and the difference
    [fileSize - offset] fits in 64 bits. *)
Theorem getRange_cases idx partSize fileSize :
  (partSize <= 0 -> getRange idx partSize fileSize = (0, 0)) /\
  (0 < partSize -> Int64.in_range (idx * partSize) ->
     let offset := idx * partSize in
     (fileSize <= offset -> getRange idx partSize fileSize = (offset, 0)) /\
     (offset < fileSize -> Int64.in_range (fileSize - offset) ->
        getRange idx partSize fileSize
        = (offset, Z.min (fileSize - offset) partSize))).
Proof.
  rewrite getRange_unfold. split.
  - intros. by rewrite decide_True.
  - intros HP Hmul. cbv zeta. rewrite (Int64Facts.mul_exact _ _ Hmul).
    rewrite decide_False by lia. split.
    + intros. by rewrite decide_True.
    + intros Hlt Hsub. rewrite decide_False by lia.
      by rewrite (Int64Facts.sub_exact _ _ Hsub).
Qed.

(** C3 (as stated) fails where the 64-bit arithmetic wraps around.  At
    index 2 with parts of [2^62] bytes the product [2^63] wraps to [-2^63]:
    the exact offset is past the end of a 10-byte file, yet the result is
    not (offset, 0).  At index -2 the product [-2^63] is exact, but the
    difference [10 + 2^63] wraps, and the length is not
    [min (fileSize - offset) partSize]. *)
Lemma getRange_cases_overflow :
  (0 < 2 ^ 62 /\ 10 <= 2 * 2 ^ 62 /\
   getRange 2 (2 ^ 62) 10 = (- 2 ^ 63, - 2 ^ 63 + 10) /\
   getRange 2 (2 ^ 62) 10 <> (2 * 2 ^ 62, 0)) /\
  (0 < 2 ^ 62 /\ -2 * 2 ^ 62 < 10 /\
   getRange (-2) (2 ^ 62) 10 = (- 2 ^ 63, - 2 ^ 63 + 10) /\
   getRange (-2) (2 ^ 62) 10
   <> (-2 * 2 ^ 62, Z.min (10 - -2 * 2 ^ 62) (2 ^ 62))).
Proof.
  assert (H1 : getRange 2 (2 ^ 62) 10 = (- 2 ^ 63, - 2 ^ 63 + 10))
    by (vm_compute; reflexivity).
  assert (H2 : getRange (-2) (2 ^ 62) 10 = (- 2 ^ 63, - 2 ^ 63 + 10))
    by (vm_compute; reflexivity).
  rewrite H1, H2. repeat split; try lia; vm_compute; congruence.
Qed.

(** ** The result collector and the final ordering *)

Section Collector.
Implicit Types (r : uploadTaskResponse) (l : list uploadTaskResponse).
Implicit Types (m : gmap string uploadTaskResponse).

#[local] Instance fmt_Sprint_inj : Inj (=) (=) fmt_Sprint.
Proof. unfold fmt_Sprint. apply _. Qed.

(** Every entry of the collector's map sits under the decimal form of its
    own part ID. *)
Definition keyed m : Prop :=
  forall k r, m !! k = Some r -> k = fmt_Sprint (PartID r).

Lemma collect_from_keyed l m :
  keyed m ->
  keyed (foldl (fun results r => <[fmt_Sprint (PartID r) := r]> results) m l).
Proof.
  revert m. induction l as [|r l IH]; intros m Hm; [done|].
  simpl. apply IH. intros k r'. rewrite lookup_insert.
  case_decide; [|by apply Hm]. by intros [= <-].
Qed.

Lemma collect_keyed l : keyed (collect l).
Proof. apply collect_from_keyed. intros k r. by rewrite lookup_empty. Qed.

(** The part IDs the map holds are those that were delivered. *)
Lemma collect_from_ids l m id :
  (exists r, foldl (fun results r => <[fmt_Sprint (PartID r) := r]> results) m l
             !! fmt_Sprint id = Some r)
  <-> id ∈ PartID <$> l \/ exists r, m !! fmt_Sprint id = Some r.
Proof.
  revert m. induction l as [|r l IH]; intros m; simpl.
  - rewrite elem_of_nil. split; [by auto|]. by intros [[]|?].
  - rewrite IH, elem_of_cons. setoid_rewrite lookup_insert.
    split.
    + intros [?|[r' Hr']]; [by auto|].
      case_decide as Heq; [|by eauto].
      apply (inj fmt_Sprint) in Heq. auto.
    + intros [[->|?]|[r' Hr']]; [|by auto|].
      * right. exists r. by rewrite decide_True.
      * right. case_decide; eauto.
Qed.

Lemma collect_ids l id :
  (exists r, collect l !! fmt_Sprint id = Some r) <-> id ∈ PartID <$> l.
Proof.
  unfold collect. rewrite collect_from_ids.
  setoid_rewrite lookup_empty. split; [|by auto].
  by intros [?|[? [=]]].
Qed.

(** The values of a keyed map carry pairwise distinct part IDs. *)
Lemma keyed_values_NoDup m :
  keyed m -> NoDup (PartID <$> (map_to_list m).*2).
Proof.
  intros Hm. apply (NoDup_fmap_1 fmt_Sprint).
  replace (fmt_Sprint <$> (PartID <$> (map_to_list m).*2))
    with ((map_to_list m).*1); [apply NoDup_fst_map_to_list|].
  rewrite <- !list_fmap_compose. apply list_fmap_ext.
  intros i [k r] Hin. simpl.
  apply list_elem_of_lookup_2, elem_of_map_to_list in Hin. by apply Hm.
Qed.

Lemma keyed_values_ids m id :
  keyed m ->
  id ∈ PartID <$> (map_to_list m).*2 <-> exists r, m !! fmt_Sprint id = Some r.
Proof.
  intros Hm. rewrite list_elem_of_fmap. split.
  - intros (r & -> & Hr). apply list_elem_of_fmap in Hr as ([k r'] & -> & Hin).
    apply elem_of_map_to_list in Hin. simpl.
    exists r'. by rewrite <- (Hm _ _ Hin).
  - intros [r Hr]. pose proof (Hm _ _ Hr) as Hk.
    apply (inj fmt_Sprint) in Hk. exists r. split; [done|].
    apply list_elem_of_fmap. exists (fmt_Sprint id, r). split; [done|].
    by apply elem_of_map_to_list.
Qed.

Lemma le_by_cmpPartID a b : le_by cmpPartID a b <-> PartID a <= PartID b.
Proof.
  unfold le_by, cmpPartID.
  destruct (Z.ltb_spec (PartID a) (PartID b)); [lia|].
  destruct (Z.gtb_spec (PartID a) (PartID b)); lia.
Qed.

#[local] Instance le_by_cmpPartID_total : Total (le_by cmpPartID).
Proof. intros a b. rewrite !le_by_cmpPartID. lia. Qed.

#[local] Instance le_by_cmpPartID_trans : Transitive (le_by cmpPartID).
Proof. intros a b c. rewrite !le_by_cmpPartID. lia. Qed.

Lemma StronglySorted_le_lt (ids : list Z) :
  StronglySorted Z.le ids -> NoDup ids -> StronglySorted Z.lt ids.
Proof.
  induction 1 as [|x ids Hs IH Hx]; intros Hnd; constructor.
  - apply IH. by apply NoDup_cons in Hnd as [_ ?].
  - apply NoDup_cons in Hnd as [Hnin _].
    apply Forall_forall. intros y Hy.
    rewrite Forall_forall in Hx. specialize (Hx y Hy).
    assert (x <> y) by (intros ->; done). lia.
Qed.

(** Sorting a list whose part IDs are pairwise distinct puts the IDs in
    strictly ascending order. *)
Lemma SortFunc_strict l :
  NoDup (PartID <$> l) ->
  StronglySorted Z.lt (PartID <$> slices_SortFunc cmpPartID l).
Proof.
  intros Hnd. apply StronglySorted_le_lt.
  - apply StronglySorted_fmap with (R1 := le_by cmpPartID).
    + intros a b. by rewrite le_by_cmpPartID.
    + apply StronglySorted_merge_sort; apply _.
  - unfold slices_SortFunc. by rewrite merge_sort_Permutation.
Qed.

Lemma NoDup_fmap_eq {A B} (f : A -> B) (l : list A) a b :
  NoDup (f <$> l) -> a ∈ l -> b ∈ l -> f a = f b -> a = b.
Proof.
  induction l as [|x l IH]; [by rewrite elem_of_nil|].
  simpl. rewrite NoDup_cons, !elem_of_cons.
  intros [Hnin Hnd] [->|Ha] [->|Hb] Heq; auto.
  - destruct Hnin. rewrite Heq. by apply list_elem_of_fmap_2.
  - destruct Hnin. rewrite <- Heq. by apply list_elem_of_fmap_2.
Qed.

(** On such a list the outcome does not depend on the sorting algorithm:
    every permutation of it that is ordered by [cmpPartID] is the list
    [slices_SortFunc] computes. *)
Lemma SortFunc_unique l l' :
  NoDup (PartID <$> l) -> l' ≡ₚ l -> Sorted (le_by cmpPartID) l' ->
  l' = slices_SortFunc cmpPartID l.
Proof.
  intros Hnd Hperm Hsorted. unfold slices_SortFunc.
  apply (Sorted_unique_strong (le_by cmpPartID)); [|done| |].
  - intros a b Ha Hb Hab Hba. apply le_by_cmpPartID in Hab, Hba.
    apply (NoDup_fmap_eq PartID l); [done| | |lia].
    + by rewrite <- Hperm.
    + by rewrite merge_sort_Permutation in Hb.
  - apply Sorted_merge_sort; apply _.
  - by rewrite merge_sort_Permutation.
Qed.

(** The list [Client.upload] returns, for any order [vals] in which the
    map hands out its values: strictly ascending part IDs, those that were
    delivered. *)
Lemma sorted_values_spec (delivered : list uploadTaskResponse) vals :
  vals ≡ₚ (map_to_list (collect delivered)).*2 ->
  StronglySorted Z.lt (PartID <$> slices_SortFunc cmpPartID vals) /\
  (forall id, id ∈ PartID <$> slices_SortFunc cmpPartID vals
              <-> id ∈ PartID <$> delivered).
Proof.
  intros Hvals. pose proof (collect_keyed delivered) as Hkeyed. split.
  - apply SortFunc_strict. rewrite Hvals. by apply keyed_values_NoDup.
  - intros id. unfold slices_SortFunc.
    rewrite merge_sort_Permutation, Hvals.
    by rewrite keyed_values_ids, collect_ids.
Qed.

Lemma StronglySorted_lt_NoDup (ids : list Z) :
  StronglySorted Z.lt ids -> NoDup ids.
Proof.
  induction 1 as [|x ids Hs IH Hx]; constructor; [|done].
  intros Hin. rewrite Forall_forall in Hx. specialize (Hx x Hin). lia.
Qed.

Lemma ascending_unique (ids1 ids2 : list Z) :
  StronglySorted Z.lt ids1 -> StronglySorted Z.lt ids2 ->
  (forall id, id ∈ ids1 <-> id ∈ ids2) -> ids1 = ids2.
Proof.
  intros H1 H2 Hmem. apply (StronglySorted_unique_strong Z.lt); try done.
  - intros; lia.
  - apply NoDup_Permutation; auto using StronglySorted_lt_NoDup.
Qed.

(** The sequence of part IDs does not depend on the order of arrival nor
    on the iteration order of the map. *)
Lemma collected_order_independent
    (delivered1 delivered2 : list uploadTaskResponse) vals1 vals2 :
  PartID <$> delivered1 ≡ₚ PartID <$> delivered2 ->
  vals1 ≡ₚ (map_to_list (collect delivered1)).*2 ->
  vals2 ≡ₚ (map_to_list (collect delivered2)).*2 ->
  PartID <$> slices_SortFunc cmpPartID vals1
  = PartID <$> slices_SortFunc cmpPartID vals2.
Proof.
  intros Hperm [Hs1 Hm1]%sorted_values_spec [Hs2 Hm2]%sorted_values_spec.
  apply ascending_unique; [done..|].
  intros id. by rewrite Hm1, Hm2, Hperm.
Qed.

End Collector.

(** ** A small world to run the client in

    One file of 35 bytes, one directory and one unreadable path; a service
    that plans four parts of 10 bytes; workers that deliver their responses
    in the reverse of the enqueueing order; a map iterated backwards.  The
    parameters choose what goes wrong. *)
Module Demo.

Definition plan : IngestResponse :=
  {| ID := "ing-1"; DocumentID := ""; State := "upload";
     Filename := "tiles.mbtiles"; Size := 35; Progress := 0;
     ir_Error := {| Message := "" |};
     Upload := {| PartSize := 10;
                  Parts := [ {| part_PartID := 1; part_URL := "u1" |};
                             {| part_PartID := 2; part_URL := "u2" |};
                             {| part_PartID := 3; part_URL := "u3" |};
                             {| part_PartID := 4; part_URL := "u4" |} ];
                  upload_Type := ingestUploadTypeS3MultiPart |};
     UploadURL := "" |}.

Definition answer (state : string) : IngestResponse :=
  {| ID := "ing-1"; DocumentID := "doc-1"; State := state;
     Filename := "tiles.mbtiles"; Size := 35; Progress := 0;
     ir_Error := {| Message := "" |};
     Upload := {| PartSize := 0; Parts := []; upload_Type := "" |};
     UploadURL := "" |}.

Definition respond (t : uploadTask) : uploadTaskResponse :=
  {| PartID := part_PartID (task_part t);
     ETag := "etag-" +:+ fmt_Sprint (part_PartID (task_part t)) |}.

Definition stat (fp : string) : FileInfo + error :=
  if decide (fp = "tiles.mbtiles")
  then inl {| Name := "tiles.mbtiles"; FileSize := 35; IsDir := false |}
  else if decide (fp = "dir")
  then inl {| Name := "dir"; FileSize := 4096; IsDir := true |}
  else if decide (fp = "locked/tiles.mbtiles")
  then inr (foreignError ErrPermission "permission denied")
  else inr (foreignError ErrNotExist "no such file or directory").

Definition execute (cancelDown : bool) (req : Request) : error + Response :=
  let down := cancelDown && bool_decide (URL req = serviceIngestCancel) in
  inr {| StatusCode := if down then 503 else 200; IsError := down;
         RespBody := URL req |}.

Definition unmarshal (planState finalState body : string)
  : IngestResponse * option error :=
  if decide (body = serviceIngestCreate)
  then ({| ID := ID plan; DocumentID := ""; State := planState;
           Filename := Filename plan; Size := Size plan; Progress := 0;
           ir_Error := ir_Error plan; Upload := Upload plan;
           UploadURL := "" |}, None)
  else if decide (body = serviceIngestProcess)
  then (answer finalState, None)
  else (answer "canceled", None).

(** [planState] and [finalState] are the states the service reports for
    the plan and at finalize, [poolErr] the error of a worker, if any, and
    [cancelDown] whether the cancel endpoint answers with an error
    status. *)
Definition env (planState finalState : string)
    (poolErr : option error) (cancelDown : bool) : Env.
Proof.
  refine
    {| os_Stat := stat;
       Execute := fun _ req => execute cancelDown req;
       json_Unmarshal := unmarshal planState finalState;
       run_pool := fun _ tasks =>
         {| processed := tasks; delivered := reverse (respond <$> tasks);
            waitErr := poolErr |};
       maps_Values := fun m => reverse (map_to_list m).*2;
       maps_Values_perm := fun m => reverse_Permutation _;
       Execute_foreign := _;
       json_Unmarshal_foreign := _ |}.
  - intros _ req err. unfold execute. discriminate.
  - intros body ir err. unfold unmarshal.
    repeat case_decide; discriminate.
Defined.

End Demo.

(** ** [Client.upload] *)

Definition no_requests : ClientState := {| issued := []; wp_closed := false |}.

Section Upload.
Context `{Env}.

(** C1: the parts of a successful [Client.upload] are in strictly ascending
    order of their numeric part ID, whatever the order in which the
    responses arrived and whatever the iteration order of the map; they
    carry exactly the part IDs that were delivered. *)
Theorem upload_parts_ascending ir fp st res st' :
  Client.upload ir fp st = (Ret (res, None), st') ->
  StronglySorted Z.lt (PartID <$> result_Parts res) /\
  (forall id,
     id ∈ PartID <$> result_Parts res
     <-> id ∈ PartID <$> delivered
           (run_pool (issued st)
              (generate 0 (Parts (Upload ir)) (PartSize (Upload ir))
                 (Size ir) fp))).
Proof.
  unfold Client.upload. cbv zeta.
  destruct (wp_closed st); [done|].
  set (run := run_pool (issued st) _). destruct (waitErr run); [done|].
  intros [= <- _]. cbn [result_Parts newUploadResult].
  apply sorted_values_spec, maps_Values_perm.
Qed.

End Upload.

Lemma upload_parts_ascending_witness :
  let E := Demo.env "upload" "completed" None false in
  exists res st',
    Client.upload Demo.plan "tiles.mbtiles" no_requests = (Ret (res, None), st') /\
    PartID <$> delivered (run_pool [] (generate 0 (Parts (Upload Demo.plan)) 10 35
                                         "tiles.mbtiles")) = [4; 3; 2; 1] /\
    PartID <$> result_Parts res = [1; 2; 3; 4] /\
    StronglySorted Z.lt (PartID <$> result_Parts res).
Proof.
  intros E. eexists _, _. split; [vm_compute; reflexivity|].
  split; [reflexivity|]. split; [reflexivity|].
  eapply (upload_parts_ascending (H := E) Demo.plan "tiles.mbtiles" no_requests).
  vm_compute. reflexivity.
Defined.

(** ** The orchestrator: [process], [withCancel], [Create], [Update] *)

Section Orchestrator.
Context `{Env}.

(** The service answered the plan request of this run with a decodable
    response carrying the ingestion ID [uid]. *)
Definition obtained (id fp : string) (st : ClientState) (uid : string) : Prop :=
  exists info resp ir,
    os_Stat fp = inl info /\ IsDir info = false /\
    Execute (issued st)
      (Client.ingest_request
         (newIngestRequest id (Name info) (FileSize info))) = inr resp /\
    IsError resp = false /\
    json_Unmarshal (RespBody resp) = (ir, None) /\
    ID ir = uid.

Lemma cancel_calls_app log1 log2 :
  cancel_calls (log1 ++ log2) = cancel_calls log1 ++ cancel_calls log2.
Proof. apply omap_app. Qed.

Lemma cancel_id_cancel_request id :
  cancel_id (Client.cancel_request id) = Some id.
Proof. reflexivity. Qed.

Lemma cancel_id_ingest_request request :
  cancel_id (Client.ingest_request request) = None.
Proof. unfold Client.ingest_request. by case_decide. Qed.

Lemma cancel_id_finalize_request ur :
  cancel_id (Client.finalize_request ur) = None.
Proof. reflexivity. Qed.

Lemma cancel_calls_put tasks :
  cancel_calls (Client.put_request <$> tasks) = [].
Proof. induction tasks as [|t tasks IH]; [done|]. exact IH. Qed.

Lemma cancel_calls_issue_ingest request st :
  cancel_calls (issued (issue [Client.ingest_request request] st))
  = cancel_calls (issued st).
Proof.
  cbn. rewrite cancel_calls_app. cbn.
  by rewrite cancel_id_ingest_request, app_nil_r.
Qed.

(** Each operation issues exactly its own request. *)
Lemma cancel_issues id st out st' :
  Client.cancel id st = (out, st') ->
  st' = issue [Client.cancel_request id] st /\ exists r, out = Ret r.
Proof.
  unfold Client.cancel, bind, Client.execute, ret.
  destruct (Execute (issued st) _) as [err|resp]; [intros [= <- <-]; eauto|].
  destruct (IsError resp); [intros [= <- <-]; eauto|].
  destruct (json_Unmarshal _) as [ir [uerr|]]; intros [= <- <-]; eauto.
Qed.

Lemma finalize_issues ur st out st' :
  Client.finalize ur st = (out, st') ->
  st' = issue [Client.finalize_request ur] st /\ exists r, out = Ret r.
Proof.
  unfold Client.finalize, bind, Client.execute, ret.
  destruct (Execute (issued st) _) as [err|resp]; [intros [= <- <-]; eauto|].
  destruct (IsError resp); [intros [= <- <-]; eauto|].
  destruct (json_Unmarshal _) as [ir [uerr|]]; [intros [= <- <-]; eauto|].
  case_decide; intros [= <- <-]; eauto.
Qed.

(** [upload] issues PUT requests only. *)
Lemma upload_issues ir fp st out st' :
  Client.upload ir fp st = (out, st') ->
  cancel_calls (issued st') = cancel_calls (issued st).
Proof.
  unfold Client.upload. cbv zeta.
  destruct (wp_closed st); [by intros [= <- <-]|].
  destruct (waitErr _); intros [= <- <-]; cbn;
    by rewrite cancel_calls_app, cancel_calls_put, app_nil_r.
Qed.

(** What [ingest] returns, by the answer of the service. *)
Lemma ingest_cases request st :
  let req := Client.ingest_request request in
  match Execute (issued st) req with
  | inl err =>
      Client.ingest request st
      = (Ret (IngestResponse_zero, Some err), issue [req] st)
      /\ errors_As err = None
  | inr resp =>
      if IsError resp
      then exists err,
          Client.ingest request st
          = (Ret (IngestResponse_zero, Some err), issue [req] st)
          /\ errors_As err = None
      else
        match json_Unmarshal (RespBody resp) with
        | (_, Some uerr) =>
            Client.ingest request st
            = (Ret (IngestResponse_zero, Some uerr), issue [req] st)
            /\ errors_As uerr = None
        | (ir, None) =>
            if decide (State ir = "failed")
            then Client.ingest request st
                 = (Ret (IngestResponse_zero,
                         Some (UploadFailedError (ID ir) None)), issue [req] st)
            else Client.ingest request st = (Ret (ir, None), issue [req] st)
        end
  end.
Proof.
  intros req. unfold Client.ingest, bind, Client.execute, ret. fold req.
  destruct (Execute (issued st) req) as [err|resp] eqn:Hex.
  { split; [done|]. by eapply Execute_foreign. }
  destruct (IsError resp); [by eauto|].
  destruct (json_Unmarshal _) as [ir [uerr|]] eqn:Hjs.
  { split; [done|]. by eapply json_Unmarshal_foreign. }
  by case_decide.
Qed.

Ltac no_obtained :=
  let H := fresh in
  unfold obtained;
  intros ? (? & ? & ? & H & ? & ? & ? & ? & ?);
  simplify_eq; repeat match goal with x := _ |- _ => subst x end; congruence.

(** [process] issues no cancel call; it returns an [UploadFailedError], for
    the ID the service handed out, exactly when it fails after an ID was
    obtained. *)
Lemma process_spec id fp st out st1 :
  Client.process id fp st = (out, st1) ->
  cancel_calls (issued st1) = cancel_calls (issued st) /\
  match out with
  | Panic _ => True
  | Ret (_, None) => exists uid, obtained id fp st uid
  | Ret (_, Some err) =>
      match errors_As err with
      | Some (uid, _) => obtained id fp st uid
      | None => forall uid, ~ obtained id fp st uid
      end
  end.
Proof.
  unfold Client.process, fileInfo.
  destruct (os_Stat fp) as [info|serr] eqn:Hstat.
  2:{ destruct (os_IsNotExist (Some serr)); intros [= <- <-]; (split; [done|]);
      [no_obtained|done]. }
  destruct (IsDir info) eqn:Hdir.
  { intros [= <- <-]. split; [done|]. no_obtained. }
  cbn [os_IsNotExist]. cbv iota. unfold bind at 1.
  pose (request := newIngestRequest id (Name info) (FileSize info)).
  fold request.
  pose proof (cancel_calls_issue_ingest request st) as Hst0.
  pose proof (ingest_cases request st) as Hing. cbv zeta in Hing.
  destruct (Execute (issued st) (Client.ingest_request request))
    as [err|resp] eqn:Hex.
  { destruct Hing as [-> Has]. intros [= <- <-].
    split; [done|]. rewrite Has. no_obtained. }
  destruct (IsError resp) eqn:Hiserr.
  { destruct Hing as (err & -> & Has). intros [= <- <-].
    split; [done|]. rewrite Has. no_obtained. }
  destruct (json_Unmarshal (RespBody resp)) as [ir [uerr|]] eqn:Hjs.
  { destruct Hing as [-> Has]. intros [= <- <-].
    split; [done|]. rewrite Has. no_obtained. }
  assert (Hob : obtained id fp st (ID ir)) by (by exists info, resp, ir).
  case_decide as Hstate; rewrite Hing; clear Hing.
  { intros [= <- <-]. split; [done|]. exact Hob. }
  unfold bind at 1.
  destruct (Client.upload ir fp _) as [uout st2] eqn:Hup.
  apply upload_issues in Hup as Hst2.
  destruct uout as [[uresp uerr]|msg]; [|intros [= <- <-]; split; [congruence|done]].
  destruct uerr as [uerr|].
  { intros [= <- <-]. split; [congruence|]. exact Hob. }
  unfold bind.
  destruct (Client.finalize uresp st2) as [fout st3] eqn:Hfin.
  apply finalize_issues in Hfin as [-> [[presp ferr] ->]].
  assert (Hst3 : cancel_calls (issued (issue [Client.finalize_request uresp] st2))
                 = cancel_calls (issued st)).
  { cbn. rewrite cancel_calls_app. cbn. rewrite app_nil_r. congruence. }
  destruct ferr as [ferr|]; intros [= <- <-]; (split; [done|]); eauto.
Qed.

Lemma obtained_unique id fp st uid1 uid2 :
  obtained id fp st uid1 -> obtained id fp st uid2 -> uid1 = uid2.
Proof.
  intros (? & ? & ? & ? & ? & ? & ? & ? & ?) (? & ? & ? & ? & ? & ? & ? & ? & ?).
  simplify_eq. congruence.
Qed.

Lemma append_empty_r (s : string) : s +:+ "" = s.
Proof.
  induction s as [|c s IH]; [done|].
  change (String c (s +:+ "") = String c s). by rewrite IH.
Qed.

(** What [withCancel] returns, by what [run] and the cancel call return. *)
Lemma withCancel_cases (run : Client.processorFn) id fp st :
  match run id fp st with
  | (Panic msg, st1) => Client.withCancel run id fp st = (Panic msg, st1)
  | (Ret (ir, None), st1) =>
      Client.withCancel run id fp st = (Ret (ir, None), st1)
  | (Ret (ir, Some err), st1) =>
      match errors_As err with
      | None =>
          Client.withCancel run id fp st
          = (Ret (ir, Some (wrapError "upload failed with: " err "")), st1)
      | Some (uid, _) =>
          match Client.cancel uid st1 with
          | (Ret (ir', Some cerr), st2) =>
              Client.withCancel run id fp st
              = (Ret (ir', Some (wrapErrors "upload failed: " err
                                   "; cancel failed: " cerr "")), st2)
          | (Ret (_, None), st2) =>
              Client.withCancel run id fp st
              = (Ret (ir, Some (wrapError "upload failed with: " err "")), st2)
          | (Panic msg, st2) =>
              Client.withCancel run id fp st = (Panic msg, st2)
          end
      end
  end.
Proof.
  unfold Client.withCancel, bind.
  destruct (run id fp st) as [[[ir [err|]]|msg] st1];
    [|reflexivity|reflexivity].
  destruct (errors_As err) as [[uid e]|]; [|reflexivity].
  destruct (Client.cancel uid st1) as [[[ir' [cerr|]]|msg] st2];
    reflexivity.
Qed.

(** C4: a response that arrives, has no error status and decodes, but
    reports the state "failed", makes [ingest] and [finalize] return an
    [UploadFailedError] with the ingestion ID (the ID of the response for
    [ingest], the ID of the upload result being finalized for [finalize])
    and no [IngestResponse]. *)
Theorem failed_state_is_upload_failure st resp ir :
  IsError resp = false ->
  json_Unmarshal (RespBody resp) = (ir, None) ->
  State ir = "failed" ->
  (forall request,
     Execute (issued st) (Client.ingest_request request) = inr resp ->
     Client.ingest request st
     = (Ret (IngestResponse_zero, Some (UploadFailedError (ID ir) None)),
        issue [Client.ingest_request request] st)) /\
  (forall ur,
     Execute (issued st) (Client.finalize_request ur) = inr resp ->
     Client.finalize ur st
     = (Ret (IngestResponse_zero, Some (UploadFailedError (result_ID ur) None)),
        issue [Client.finalize_request ur] st)).
Proof.
  intros Hok Hjs Hstate. split.
  - intros request Hex. unfold Client.ingest, bind, Client.execute, ret.
    rewrite Hex, Hok, Hjs. by rewrite decide_True.
  - intros ur Hex. unfold Client.finalize, bind, Client.execute, ret.
    rewrite Hex, Hok, Hjs. by rewrite decide_True.
Qed.

(** C5: a run of [Create] or [Update] that fails after the service handed
    out an ingestion ID returns an [UploadFailedError] for that ID and
    issues exactly one cancel call, with that ID; a run that fails before
    any ID was obtained, and a run that succeeds, issue no cancel call. *)
Theorem create_update_cancel_calls id fp st out st' :
  Client.Update id fp st = (out, st') \/
  (id = "" /\ Client.Create fp st = (out, st')) ->
  match out with
  | Ret (_, Some err) =>
      (forall uid, obtained id fp st uid ->
         (exists e, errors_As err = Some (uid, e)) /\
         cancel_calls (issued st') = cancel_calls (issued st) ++ [uid]) /\
      ((forall uid, ~ obtained id fp st uid) ->
         errors_As err = None /\
         cancel_calls (issued st') = cancel_calls (issued st))
  | Ret (_, None) => cancel_calls (issued st') = cancel_calls (issued st)
  | Panic _ => cancel_calls (issued st') = cancel_calls (issued st)
  end.
Proof.
  intros Hrun.
  assert (Hwc : Client.withCancel Client.process id fp st = (out, st'))
    by (by destruct Hrun as [?|[-> ?]]).
  clear Hrun. pose proof (withCancel_cases Client.process id fp st) as Hcases.
  destruct (Client.process id fp st) as [pout st1] eqn:Hproc.
  apply process_spec in Hproc as [Hst1 Hid].
  destruct pout as [[ir [err|]]|msg].
  - destruct (errors_As err) as [[uid e]|] eqn:Has.
    + destruct (Client.cancel uid st1) as [cout st2] eqn:Hcancel.
      apply cancel_issues in Hcancel as [-> [[ir' cerr] ->]].
      assert (Hcalls : cancel_calls (issued (issue [Client.cancel_request uid] st1))
                       = cancel_calls (issued st) ++ [uid]).
      { cbn. rewrite cancel_calls_app, Hst1. by cbn. }
      destruct cerr as [cerr|]; rewrite Hcases in Hwc; injection Hwc as <- <-.
      * split.
        -- intros uid' Hob. rewrite (obtained_unique _ _ _ _ _ Hob Hid).
           cbn. rewrite Has. eauto.
        -- intros Hno. by destruct (Hno uid).
      * split.
        -- intros uid' Hob. rewrite (obtained_unique _ _ _ _ _ Hob Hid).
           cbn. rewrite Has. eauto.
        -- intros Hno. by destruct (Hno uid).
    + rewrite Hcases in Hwc. injection Hwc as <- <-. split.
      * intros uid Hob. by destruct (Hid uid).
      * intros _. by cbn.
  - rewrite Hcases in Hwc. by injection Hwc as <- <-.
  - rewrite Hcases in Hwc. by injection Hwc as <- <-.
Qed.

(** C6: when the compensating cancel fails too, [withCancel] returns one
    error that wraps both the original error and the cancel error and whose
    text carries both texts; [errors.As] still finds the original
    [UploadFailedError] in it. *)
Theorem withCancel_reports_both (run : Client.processorFn)
    id fp st ir err uid e st1 ir' cerr st2 :
  run id fp st = (Ret (ir, Some err), st1) ->
  errors_As err = Some (uid, e) ->
  Client.cancel uid st1 = (Ret (ir', Some cerr), st2) ->
  exists both,
    Client.withCancel run id fp st = (Ret (ir', Some both), st2) /\
    err ∈ chain both /\ cerr ∈ chain both /\
    Error both
    = "upload failed: " +:+ Error err +:+ "; cancel failed: " +:+ Error cerr /\
    errors_As both = Some (uid, e).
Proof.
  intros Hrun Has Hcancel.
  pose proof (withCancel_cases run id fp st) as Hcases.
  rewrite Hrun, Has, Hcancel in Hcases.
  eexists. split; [exact Hcases|].
  assert (Hhead : forall x, x ∈ chain x) by (intros []; apply list_elem_of_here).
  repeat split.
  - cbn [chain]. apply list_elem_of_further, elem_of_app. left. apply Hhead.
  - cbn [chain]. apply list_elem_of_further, elem_of_app. right. apply Hhead.
  - cbn [Error]. by rewrite append_empty_r.
  - cbn [errors_As]. by rewrite Has.
Qed.

(** C7: when the file does not exist or the path is a directory, [process]
    returns the validation error of [fileInfo] and issues no request; the
    state is left as it was. *)
Theorem process_validation_fails_first id fp st :
  (exists e, os_Stat fp = inr e /\ os_IsNotExist (Some e) = true) \/
  (exists info, os_Stat fp = inl info /\ IsDir info = true) ->
  exists err,
    fileInfo fp = (None, Some err) /\
    errors_As err = None /\
    Client.process id fp st = (Ret (IngestResponse_zero, Some err), st).
Proof.
  unfold Client.process, fileInfo.
  intros [(e & -> & ->)|(info & -> & ->)]; eexists; by repeat split.
Qed.

(** C9: when [os.Stat] fails with an error other than not-exist, [fileInfo]
    returns a nil [FileInfo] with a nil error; it returns an error only if
    the file does not exist or the path is a directory. *)
Theorem fileInfo_swallows_other_errors fp :
  (forall e, os_Stat fp = inr e -> os_IsNotExist (Some e) = false ->
     fileInfo fp = (None, None)) /\
  (forall err, (fileInfo fp).2 = Some err ->
     (exists e, os_Stat fp = inr e /\ os_IsNotExist (Some e) = true) \/
     (exists info, os_Stat fp = inl info /\ IsDir info = true)).
Proof.
  unfold fileInfo. split.
  - by intros e -> ->.
  - intros err. destruct (os_Stat fp) as [info|e].
    + destruct (IsDir info) eqn:Hdir; [by eauto|done].
    + destruct (os_IsNotExist (Some e)) eqn:Hne; [by eauto|done].
Qed.

End Orchestrator.

(** ** The worker pool *)

Section Pool.
Import pool.
Context {T : Type}.
Implicit Types (p : pool T) (ev : event T) (evs : list (event T)).

Lemma run_app p evs1 evs2 :
  run p (evs1 ++ evs2)
  = match run p evs1 with
    | Next p' => run p' evs2
    | r => r
    end.
Proof.
  revert p. induction evs1 as [|ev evs1 IH]; intros p; [done|].
  cbn [run app]. destruct (step p ev); auto.
Qed.

Lemma run_snoc p evs ev :
  run p (evs ++ [ev])
  = match run p evs with
    | Next p' => step p' ev
    | r => r
    end.
Proof.
  rewrite run_app. destruct (run p evs) as [p'| |]; [|done|done].
  cbn [run]. by destruct (step p' ev).
Qed.

(** Unfolding one step: each event either is refused or changes the pool
    in one of five ways. *)
Inductive step_spec p : event T -> pool T -> Prop :=
| step_cancel err : step_spec p (Cancel err) (cancel_scope err p)
| step_start :
    started p = false ->
    step_spec p CallStart
      {| config := config p; tasks := tasks p; started := true;
         scope := scope p; ctx := ctx p;
         workers := replicate (Z.to_nat (concurrency (config p))) Idle;
         group_err := group_err p; returned := returned p |}
| step_stop :
    closed (tasks p) = false ->
    step_spec p CallStop (set_tasks {| buf := buf (tasks p); closed := true |} p)
| step_handoff t w :
    closed (tasks p) = false -> workers p !! w = Some Idle ->
    buf (tasks p) = [] ->
    step_spec p (CallEnqueue t (Some w)) (set_worker w (Busy t) p)
| step_send t :
    closed (tasks p) = false ->
    step_spec p (CallEnqueue t None)
      (set_tasks {| buf := buf (tasks p) ++ [t]; closed := false |} p)
| step_receive w t rest :
    workers p !! w = Some Idle -> buf (tasks p) = t :: rest ->
    step_spec p (Receive w)
      (set_worker w (Busy t)
         (set_tasks {| buf := rest; closed := closed (tasks p) |} p))
| step_closed w :
    workers p !! w = Some Idle -> buf (tasks p) = [] ->
    closed (tasks p) = true ->
    step_spec p (SeeClosed w) (worker_returns w Drained p)
| step_done w err :
    workers p !! w = Some Idle -> ctx p = Some err ->
    step_spec p (SeeDone w) (worker_returns w (Cancelled err) p)
| step_failed w t err :
    workers p !! w = Some (Busy t) ->
    step_spec p (Processed w (Some err)) (worker_returns w (Failed err) p)
| step_processed w t :
    workers p !! w = Some (Busy t) ->
    step_spec p (Processed w None) (set_worker w Idle p).

Lemma step_Next p ev p' : step p ev = Next p' -> step_spec p ev p'.
Proof.
  destruct ev as [err| | |t [w|]|w|w|w|w err]; cbn.
  - intros [= <-]. constructor.
  - unfold Start. destruct (started p) eqn:?; [done|].
    intros [= <-]. by constructor.
  - unfold Stop. destruct (closed (tasks p)) eqn:?; [done|].
    intros [= <-]. by constructor.
  - unfold Enqueue. destruct (closed (tasks p)) eqn:?; [done|].
    destruct (workers p !! w) as [[]|] eqn:?; try done.
    destruct (buf (tasks p)) eqn:?; [|done].
    intros [= <-]. by constructor.
  - unfold Enqueue. destruct (closed (tasks p)) eqn:?; [done|].
    case_match; [|done]. intros [= <-]. by constructor.
  - unfold process_receive.
    destruct (workers p !! w) as [[]|] eqn:?; try done.
    destruct (buf (tasks p)) eqn:?; [done|].
    intros [= <-]. by econstructor.
  - unfold process_closed.
    destruct (workers p !! w) as [[]|] eqn:?; try done.
    destruct (buf (tasks p)) eqn:?; [|done].
    destruct (closed (tasks p)) eqn:?; [|done].
    intros [= <-]. by constructor.
  - unfold process_done.
    destruct (workers p !! w) as [[]|] eqn:?; try done.
    destruct (ctx p) eqn:?; [|done].
    intros [= <-]. by constructor.
  - unfold process_processed.
    destruct (workers p !! w) as [[]|] eqn:?; try done.
    destruct err; intros [= <-]; by econstructor.
Qed.

(** A closed queue stays closed. *)
Lemma step_closed_stays p ev p' :
  step p ev = Next p' -> closed (tasks p) = true -> closed (tasks p') = true.
Proof. intros Hstep%step_Next Hc. destruct Hstep; cbn; congruence. Qed.

Lemma run_closed_stays p evs p' :
  run p evs = Next p' -> closed (tasks p) = true -> closed (tasks p') = true.
Proof.
  revert p. induction evs as [|ev evs IH]; intros p; cbn [run].
  - by intros [= <-].
  - destruct (step p ev) as [p1| |] eqn:Hstep; [|done|done].
    eauto using step_closed_stays.
Qed.

(** C10: once [Stop] has been called, whatever happens in between, a call
    of [Enqueue] panics with a send on the closed channel, whether a worker
    is waiting or not; it neither blocks nor adds the task. *)
Theorem Enqueue_after_Stop_panics p0 evs1 evs2 p t receiver :
  run p0 (evs1 ++ CallStop :: evs2) = Next p ->
  step p (CallEnqueue t receiver) = Panicked "send on closed channel" /\
  run p0 (evs1 ++ CallStop :: evs2 ++ [CallEnqueue t receiver])
  = Panicked "send on closed channel".
Proof.
  intros Hrun.
  assert (Hclosed : closed (tasks p) = true).
  { rewrite run_app in Hrun.
    destruct (run p0 evs1) as [p1| |]; [|done|done].
    cbn [run step] in Hrun. unfold Stop in Hrun.
    destruct (closed (tasks p1)); [done|].
    by apply run_closed_stays in Hrun. }
  assert (Hstep : step p (CallEnqueue t receiver)
                  = Panicked "send on closed channel").
  { cbn. unfold Enqueue. by rewrite Hclosed. }
  split; [done|].
  change (evs1 ++ CallStop :: evs2 ++ [CallEnqueue t receiver])
    with (evs1 ++ (CallStop :: evs2) ++ [CallEnqueue t receiver]).
  by rewrite app_assoc, run_snoc, Hrun.
Qed.

(** *** What [Start] returns *)

(** A pool on which [Start] has not been called yet. *)
Definition unstarted p : Prop :=
  started p = false /\ workers p = [] /\ group_err p = None /\
  returned p = [] /\ ctx p = scope p.

Lemma first_failure_snoc (l : list (nat * exit)) w x :
  first_failure (l ++ [(w, x)])
  = match first_failure l with
    | Some y => Some y
    | None => match x with Drained => None | _ => Some x end
    end.
Proof.
  induction l as [|[w' []] l IH]; cbn; [by destruct x|done..].
Qed.

Lemma first_failure_not_Drained (l : list (nat * exit)) :
  first_failure l <> Some Drained.
Proof. induction l as [|[w' []] l IH]; cbn; done. Qed.

Lemma first_failure_err (l : list (nat * exit)) :
  first_failure l ≫= exit_err = None <-> first_failure l = None.
Proof.
  split; [|by intros ->].
  induction l as [|[w' []] l IH]; cbn; done.
Qed.

Lemma first_failure_None (l : list (nat * exit)) :
  first_failure l = None <-> Forall (fun wx => wx.2 = Drained) l.
Proof.
  induction l as [|[w' x] l IH]; cbn; [by split|].
  rewrite Forall_cons. cbn. destruct x; rewrite ?IH.
  - split; [by auto|by intros [_ ?]].
  - split; [done|by intros [[=] _]].
  - split; [done|by intros [[=] _]].
Qed.

(** What holds of the pool throughout a run, [c] being the configured
    concurrency. *)
Record inv (c : Z) p : Prop := {
  inv_config : concurrency (config p) = c;
  inv_workers :
    length (workers p) = if started p then Z.to_nat c else 0%nat;
  inv_first : group_err p = first_failure (returned p) ≫= exit_err;
  inv_ctx : group_err p = None -> ctx p = scope p;
  inv_scope :
    forall e, first_failure (returned p) = Some (Cancelled e) ->
              scope p = Some e;
  inv_returned :
    forall w err, workers p !! w = Some (Returned err) ->
                  exists x, (w, x) ∈ returned p /\ exit_err x = err;
  inv_drained :
    forall w, (w, Drained) ∈ returned p ->
              closed (tasks p) = true /\ buf (tasks p) = []
}.

Lemma unstarted_inv p : unstarted p -> inv (concurrency (config p)) p.
Proof.
  intros (Hs & Hw & Hg & Hr & Hc). split.
  - done.
  - by rewrite Hs, Hw.
  - by rewrite Hg, Hr.
  - done.
  - by rewrite Hr.
  - intros w err. rewrite Hw. by destruct w.
  - intros w. rewrite Hr. by intros ?%elem_of_nil.
Qed.

Lemma worker_returns_inv c p w x :
  inv c p -> workers p !! w = Some Idle \/ (exists t, workers p !! w = Some (Busy t)) ->
  match x with
  | Drained => closed (tasks p) = true /\ buf (tasks p) = []
  | Cancelled err => ctx p = Some err
  | Failed _ => True
  end ->
  inv c (worker_returns w x p).
Proof.
  intros [Hcfg Hlen Hfirst Hctx Hscope Hret Hdr] Hw Hx.
  assert (Hnone : group_err p = None <-> first_failure (returned p) = None)
    by (rewrite Hfirst; apply first_failure_err).
  split; cbn.
  - done.
  - by rewrite length_insert.
  - rewrite first_failure_snoc, Hfirst.
    destruct (first_failure (returned p)) as [y|] eqn:Hff.
    + destruct y; cbn; [by apply first_failure_not_Drained in Hff|done..].
    + cbn. by destruct x.
  - destruct (group_err p); [done|].
    destruct (exit_err x); [done|]. intros _. destruct (ctx p); auto.
  - intros e. rewrite first_failure_snoc.
    destruct (first_failure (returned p)) as [y|] eqn:Hff.
    + intros [= ->]. by apply Hscope.
    + destruct x; try done. intros [= ->].
      rewrite <- Hctx; [done|]. by apply Hnone.
  - intros w' err Hlook. destruct (decide (w' = w)) as [->|Hne].
    + rewrite list_lookup_insert_eq in Hlook.
      * injection Hlook as <-. exists x. split; [|done].
        apply elem_of_app. right. apply list_elem_of_here.
      * apply lookup_lt_is_Some. destruct Hw as [->|[t ->]]; eauto.
    + rewrite list_lookup_insert_ne in Hlook by done.
      destruct (Hret _ _ Hlook) as (y & Hin & Hy).
      exists y. split; [|done]. apply elem_of_app. by left.
  - intros w'. rewrite elem_of_app, list_elem_of_singleton.
    intros [Hin|[= -> <-]]; [by eapply Hdr|done].
Qed.

Lemma set_worker_inv c p w x :
  inv c p -> (forall err, x <> Returned err) -> inv c (set_worker w x p).
Proof.
  intros [Hcfg Hlen Hfirst Hctx Hscope Hret Hdr] Hx. split; cbn; try done.
  - by rewrite length_insert.
  - intros w' err Hlook. destruct (decide (w' = w)) as [->|Hne].
    + apply list_lookup_insert_Some in Hlook as [(_ & Heq & _)|[? _]]; [|done].
      by destruct (Hx err).
    + rewrite list_lookup_insert_ne in Hlook by done. eauto.
Qed.

Lemma step_inv c p ev p' : step p ev = Next p' -> inv c p -> inv c p'.
Proof.
  intros Hstep%step_Next Hinv. destruct Hstep.
  - destruct Hinv as [Hcfg Hlen Hfirst Hctx Hscope Hret Hdr].
    split; cbn; try done.
    + intros Hg. rewrite (Hctx Hg). done.
    + intros e Hff. by rewrite (Hscope e Hff).
  - destruct Hinv as [Hcfg Hlen Hfirst Hctx Hscope Hret Hdr].
    split; cbn; try done.
    + by rewrite length_replicate, Hcfg.
    + intros w err [[=] _]%lookup_replicate.
  - destruct Hinv as [Hcfg Hlen Hfirst Hctx Hscope Hret Hdr].
    split; cbn; try done.
    intros w Hin. destruct (Hdr w Hin). congruence.
  - apply set_worker_inv; done.
  - destruct Hinv as [Hcfg Hlen Hfirst Hctx Hscope Hret Hdr].
    split; cbn; try done.
    intros w Hin. destruct (Hdr w Hin). congruence.
  - apply set_worker_inv; [|done].
    destruct Hinv as [Hcfg Hlen Hfirst Hctx Hscope Hret Hdr].
    split; cbn; try done.
    intros w' Hin. destruct (Hdr w' Hin). congruence.
  - apply worker_returns_inv; auto.
  - apply worker_returns_inv; auto.
  - apply worker_returns_inv; eauto.
  - apply set_worker_inv; done.
Qed.

Lemma run_inv c p evs p' : run p evs = Next p' -> inv c p -> inv c p'.
Proof.
  revert p. induction evs as [|ev evs IH]; intros p; cbn [run].
  - by intros [= <-].
  - destruct (step p ev) as [p1| |] eqn:Hstep; [|done|done].
    eauto using step_inv.
Qed.

(** C8 (as amended): [Start] spawns [concurrency] workers and returns the
    first error any worker returned, in the order the workers returned.
    When that first return with an error is a worker leaving on
    [ctx.Done()], the value is the cancellation error of the scope given to
    [Start].  When [Start] returns nil, every worker left on the closed and
    drained queue. *)
Theorem Start_returns_first_error p0 evs p r :
  unstarted p0 -> run p0 evs = Next p -> Start_returns p = Some r ->
  length (workers p) = Z.to_nat (concurrency (config p0)) /\
  r = first_failure (returned p) ≫= exit_err /\
  (forall err, first_failure (returned p) = Some (Cancelled err) ->
     r = Some err /\ scope p = Some err) /\
  (r = None <-> Forall (fun wx => wx.2 = Drained) (returned p)) /\
  (r = None -> workers p <> [] ->
     closed (tasks p) = true /\ buf (tasks p) = []).
Proof.
  intros Hfresh Hrun Hret.
  pose proof (run_inv _ _ _ _ Hrun (unstarted_inv _ Hfresh))
    as [Hcfg Hlen Hfirst Hctx Hscope Hreturned Hdr].
  unfold Start_returns in Hret.
  destruct (started p) eqn:Hstarted; [|done].
  destruct (forallb is_returned (workers p)) eqn:Hall; [|done].
  cbn in Hret. injection Hret as <-.
  split; [done|]. split; [done|]. split; [|split].
  - intros err Hff. split; [by rewrite Hfirst, Hff|by apply Hscope].
  - by rewrite Hfirst, first_failure_err, first_failure_None.
  - intros Hnil. rewrite Hfirst in Hnil.
    apply first_failure_err, first_failure_None in Hnil.
    intros Hne.
    destruct (workers p) as [|x ws] eqn:Hws; [done|].
    cbn in Hall. apply andb_prop in Hall as [Hx _].
    destruct x as [| |err]; try done.
    destruct (Hreturned 0%nat err) as (y & Hin & _); [by rewrite ?Hws|].
    rewrite Forall_forall in Hnil. specialize (Hnil _ Hin). cbn in Hnil.
    subst y. by eapply Hdr.
Qed.

(** *** [Start] does return

    Once the scope is cancelled or [Stop] has been called, the workers can
    always run to completion: there is a schedule after which [Start]
    returns. *)






End Pool.

(** ** Runs of the pool on concrete schedules *)

Module DemoPool.
Import pool.

Definition failed : error := errorString "processing failed".

(** Two workers, two tasks, the second of which fails (the scenario of
    TestWorkerPoolTaskError): worker 1 fails first, worker 0 finishes its
    task and then sees the group's context cancelled. *)
Definition two_workers : list (event string) :=
  [ CallEnqueue "ok" None; CallEnqueue "fail" None; CallStop; CallStart;
    Receive 0; Receive 1; Processed 1 (Some failed); Processed 0 None;
    SeeDone 0 ].

(** One worker, one task: the scope is cancelled while the worker is busy,
    and the task then fails with its own error. *)
Definition cancelled_while_busy : list (event string) :=
  [ CallEnqueue "part" None; CallStop; CallStart; Receive 0;
    Cancel context_Canceled; Processed 0 (Some failed) ].

Definition pool_of (options : list poolOption) : pool string :=
  match newPool options with
  | Ret p => p
  | Panic _ =>
      {| config := {| queueSize := 0; concurrency := 0 |};
         tasks := {| buf := []; closed := false |}; started := false;
         scope := None; ctx := None; workers := []; group_err := None;
         returned := [] |}
  end.

Definition after (p : pool string) (evs : list (event string)) : pool string :=
  match run p evs with
  | Next p' => p'
  | _ => p
  end.

End DemoPool.

Lemma Start_returns_first_error_witness :
  let p0 := DemoPool.pool_of [pool.withPoolConcurrency 2; pool.withPoolQueueSize 10] in
  let p := DemoPool.after p0 DemoPool.two_workers in
  pool.newPool [pool.withPoolConcurrency 2; pool.withPoolQueueSize 10] = Ret p0 /\
  pool.run p0 DemoPool.two_workers = pool.Next p /\
  pool.returned p
  = [(1%nat, pool.Failed DemoPool.failed);
     (0%nat, pool.Cancelled pool.context_Canceled)] /\
  pool.Start_returns p = Some (Some DemoPool.failed) /\
  length (pool.workers p) = 2%nat.
Proof.
  intros p0 p.
  assert (Hfresh : unstarted p0) by (repeat split).
  assert (Hrun : pool.run p0 DemoPool.two_workers = pool.Next p)
    by (vm_compute; reflexivity).
  assert (Hret : pool.Start_returns p = Some (Some DemoPool.failed))
    by (vm_compute; reflexivity).
  destruct (Start_returns_first_error p0 DemoPool.two_workers p _
              Hfresh Hrun Hret) as (Hlen & _).
  split; [vm_compute; reflexivity|]. split; [exact Hrun|].
  split; [vm_compute; reflexivity|]. split; [exact Hret|].
  revert Hlen. vm_compute. exact (fun Hlen => Hlen).
Defined.

(** C8 (as stated) fails: here the scope is cancelled before any task
    error (no task has failed when [Cancel] happens), yet [Start] returns
    the error of the task that was running, not the cancellation error. *)
Lemma Start_cancelled_while_busy :
  let p0 := DemoPool.pool_of [pool.withPoolConcurrency 1] in
  let p := DemoPool.after p0 DemoPool.cancelled_while_busy in
  pool.newPool [pool.withPoolConcurrency 1] = Ret p0 /\
  pool.run p0 DemoPool.cancelled_while_busy = pool.Next p /\
  DemoPool.cancelled_while_busy !! 4%nat
  = Some (pool.Cancel pool.context_Canceled) /\
  pool.is_task_error <$> take 4 DemoPool.cancelled_while_busy
  = [false; false; false; false] /\
  pool.scope p = Some pool.context_Canceled /\
  pool.Start_returns p = Some (Some DemoPool.failed) /\
  DemoPool.failed <> pool.context_Canceled.
Proof. repeat split; try (vm_compute; reflexivity). discriminate. Qed.

Lemma Enqueue_after_Stop_panics_witness :
  let p0 := DemoPool.pool_of [pool.withPoolConcurrency 2; pool.withPoolQueueSize 10] in
  let p := DemoPool.after p0 DemoPool.two_workers in
  pool.run p0 DemoPool.two_workers = pool.Next p /\
  pool.step p (pool.CallEnqueue "late" None)
  = pool.Panicked "send on closed channel".
Proof.
  intros p0 p. split; [vm_compute; reflexivity|].
  refine (proj1 (Enqueue_after_Stop_panics p0
            [pool.CallEnqueue "ok" None; pool.CallEnqueue "fail" None]
            (drop 3 DemoPool.two_workers) p "late" None _)).
  vm_compute. reflexivity.
Defined.

(** ** Runs of the client in the small world *)

Lemma failed_state_is_upload_failure_witness :
  let E := Demo.env "failed" "failed" None false in
  let request := newIngestRequest "" "tiles.mbtiles" 35 in
  let ur := newUploadResult "ing-1" [] in
  Client.ingest request no_requests
  = (Ret (IngestResponse_zero, Some (UploadFailedError "ing-1" None)),
     issue [Client.ingest_request request] no_requests) /\
  Client.finalize ur no_requests
  = (Ret (IngestResponse_zero, Some (UploadFailedError "ing-1" None)),
     issue [Client.finalize_request ur] no_requests).
Proof.
  intros E request ur. split.
  - refine (proj1 (failed_state_is_upload_failure (H := E) no_requests
              {| StatusCode := 200; IsError := false;
                 RespBody := serviceIngestCreate |}
              (Demo.unmarshal "failed" "failed" serviceIngestCreate).1
              _ _ _) request _); reflexivity.
  - refine (proj2 (failed_state_is_upload_failure (H := E) no_requests
              {| StatusCode := 200; IsError := false;
                 RespBody := serviceIngestProcess |}
              (Demo.answer "failed") _ _ _) ur _); reflexivity.
Defined.

(** A worker fails: one cancel call, for the ID the service handed out. *)
Lemma create_update_cancel_calls_witness :
  let E := Demo.env "upload" "completed" (Some (errorString "boom")) false in
  obtained "" "tiles.mbtiles" no_requests "ing-1" /\
  cancel_calls (issued (Client.Create "tiles.mbtiles" no_requests).2) = ["ing-1"].
Proof.
  intros E.
  assert (Hob : obtained "" "tiles.mbtiles" no_requests "ing-1").
  { eexists _, _, _. repeat split; reflexivity. }
  split; [exact Hob|].
  destruct (Client.Create "tiles.mbtiles" no_requests) as [out st'] eqn:Hrun.
  pose proof (create_update_cancel_calls (H := E) "" "tiles.mbtiles" no_requests out st'
                (or_intror (conj eq_refl Hrun))) as Hcalls.
  vm_compute in Hrun. injection Hrun as <- <-.
  destruct Hcalls as [Hcalls _]. exact (proj2 (Hcalls "ing-1" Hob)).
Defined.

(** A worker fails and the cancel endpoint is down: both errors come back. *)
Lemma withCancel_reports_both_witness :
  let E := Demo.env "upload" "completed" (Some (errorString "boom")) true in
  exists ir both st',
    Client.Create "tiles.mbtiles" no_requests = (Ret (ir, Some both), st') /\
    Error both
    = "upload failed: upload ing-1 failed, err: "
      +:+ "waiting for error group to finish: boom"
      +:+ "; cancel failed: canceling upload: %!w(<nil>)".
Proof.
  intros E.
  edestruct (withCancel_reports_both (H := E) Client.process "" "tiles.mbtiles"
               no_requests)
    as (both & Hrun & _ & _ & Herr & _).
  - vm_compute. reflexivity.
  - reflexivity.
  - vm_compute. reflexivity.
  - eexists _, both, _. split; [exact Hrun|]. rewrite Herr. reflexivity.
Defined.

Lemma process_validation_fails_first_witness :
  let E := Demo.env "upload" "completed" None false in
  (exists err, Client.process "" "missing.mbtiles" no_requests
               = (Ret (IngestResponse_zero, Some err), no_requests)) /\
  (exists err, Client.process "" "dir" no_requests
               = (Ret (IngestResponse_zero, Some err), no_requests)).
Proof.
  intros E. split.
  - destruct (process_validation_fails_first (H := E) "" "missing.mbtiles"
                no_requests)
      as (err & _ & _ & Hrun).
    + left. eexists. split; reflexivity.
    + by exists err.
  - destruct (process_validation_fails_first (H := E) "" "dir" no_requests)
      as (err & _ & _ & Hrun).
    + right. eexists. split; reflexivity.
    + by exists err.
Defined.

(** A permission error: [fileInfo] reports nothing, and [process] then
    dereferences the nil [FileInfo]. *)
Lemma fileInfo_swallows_other_errors_witness :
  let E := Demo.env "upload" "completed" None false in
  fileInfo "locked/tiles.mbtiles" = (None, None) /\
  Client.process "" "locked/tiles.mbtiles" no_requests
  = (Panic "invalid memory address or nil pointer dereference", no_requests).
Proof.
  intros E. split; [|reflexivity].
  refine (proj1 (fileInfo_swallows_other_errors (H := E) "locked/tiles.mbtiles")
            (foreignError ErrPermission "permission denied") _ _); reflexivity.
Defined.

Lemma getRange_cases_witness :
  getRange 0 0 35 = (0, 0) /\ getRange 4 10 35 = (40, 0) /\
  getRange 3 10 35 = (30, 5).
Proof.
  assert (Hfit : forall z, -100 <= z <= 100 -> Int64.in_range z).
  { intros z Hz. unfold Int64.in_range.
    rewrite Int64Facts.min_int_eq, Int64Facts.max_int_eq. lia. }
  split; [|split].
  - apply (proj1 (getRange_cases 0 0 35)). lia.
  - refine (proj1 (proj2 (getRange_cases 4 10 35) _ _) _);
      [lia|apply Hfit; lia|lia].
  - refine (proj2 (proj2 (getRange_cases 3 10 35) _ _) _ _);
      [lia|apply Hfit; lia|lia|apply Hfit; lia].
Defined.

(** The ranges of the spec's scenario, as the generator enqueues them. *)
Example generate_35_10 :
  (fun t => (part_PartID (task_part t), Offset t, Length t))
    <$> generate 0 (Parts (Upload Demo.plan)) 10 35 "tiles.mbtiles"
  = [(1, 0, 10); (2, 10, 10); (3, 20, 10); (4, 30, 5)].
Proof. reflexivity. Qed.

(** A full run: plan, four PUTs, finalize, no cancel. *)
Example create_succeeds :
  let E := Demo.env "upload" "completed" None false in
  exists ir st',
    Client.Create "tiles.mbtiles" no_requests = (Ret (ir, None), st') /\
    State ir = "completed" /\
    Method <$> issued st' = ["POST"; "PUT"; "PUT"; "PUT"; "PUT"; "POST"] /\
    cancel_calls (issued st') = [].
Proof. intros E. eexists _, _. by vm_compute. Qed.

(** The pool belongs to the client and its channel is closed by the first
    upload: a second [Create] on the same client obtains an ingestion ID
    and then panics in [Enqueue], with no cancel call. *)
Example second_create_panics :
  let E := Demo.env "upload" "completed" None false in
  let st1 := (Client.Create "tiles.mbtiles" no_requests).2 in
  wp_closed st1 = true /\
  (Client.Create "tiles.mbtiles" st1).1 = Panic "send on closed channel" /\
  cancel_calls (issued (Client.Create "tiles.mbtiles" st1).2) = [].
Proof. intros E st1. by vm_compute. Qed.

(* ================================================================== *)
(** * Further properties *)
(* ================================================================== *)

(** ** The generator loop of [Client.upload] *)

(** The task the generator builds for the part at position [k]. *)
Definition range_task (fp : string) (partSize fileSize : Z) (k : nat)
    (p : uploadPart) : uploadTask :=
  {| task_part := {| part_PartID := part_PartID p; part_URL := part_URL p |};
     FilePath := fp;
     Offset := Z.of_nat k * partSize;
     Length := Z.min (fileSize - Z.of_nat k * partSize) partSize |}.

Lemma wrap_high z :
  2 ^ 63 <= z < 2 ^ 64 + 2 ^ 63 -> Int64.wrap z = z - 2 ^ 64.
Proof.
  intros Hz. unfold Int64.wrap, Int64.modulus.
  replace (z + 2 ^ 63) with (z + 2 ^ 63 - 2 ^ 64 + 1 * 2 ^ 64) by lia.
  rewrite Z_mod_plus_full, Z.mod_small by lia. lia.
Qed.

(** At the first index whose offset reaches the end of the file the length
    is never positive, even when the product wraps around: the wrapped
    offset is negative and the wrapped remainder is at most 0. *)
Lemma getRange_stop idx partSize fileSize :
  0 <= fileSize <= Int64.max_int -> 0 < partSize <= Int64.max_int ->
  fileSize <= idx * partSize < fileSize + partSize ->
  snd (getRange idx partSize fileSize) <= 0.
Proof.
  rewrite Int64Facts.max_int_eq. intros HS HP Hx.
  rewrite getRange_unfold. destruct (decide (partSize <= 0)); [lia|].
  destruct (decide (idx * partSize <= 9223372036854775807)) as [Hfit|Hover].
  - rewrite Int64Facts.mul_exact
      by (unfold Int64.in_range; rewrite Int64Facts.min_int_eq,
            Int64Facts.max_int_eq; lia).
    rewrite decide_True by lia. simpl. lia.
  - assert (Hmul : Int64.mul idx partSize = idx * partSize - 2 ^ 64)
      by (apply wrap_high; lia).
    rewrite Hmul. destruct (decide _); simpl; [lia|].
    assert (Hsub : Int64.sub fileSize (idx * partSize - 2 ^ 64)
                   = fileSize - idx * partSize).
    { unfold Int64.sub. rewrite wrap_high by lia. lia. }
    rewrite Hsub. lia.
Qed.

Lemma generate_from (parts : list uploadPart) : forall (i : nat) partSize fileSize fp,
  0 <= fileSize <= Int64.max_int -> 0 < partSize <= Int64.max_int ->
  Z.of_nat i <= ceil_div fileSize partSize ->
  generate (Z.of_nat i) parts partSize fileSize fp
  = imap (fun k => range_task fp partSize fileSize (i + k))
      (take (Z.to_nat (ceil_div fileSize partSize) - i) parts).
Proof.
  induction parts as [|p parts IH]; intros i P S fp HS HP Hi.
  { by rewrite take_nil. }
  cbn [generate].
  destruct (decide (Z.of_nat i < ceil_div S P)) as [Hlt|Hge].
  - apply ceil_div_gt in Hlt as Hoff; [|lia].
    rewrite getRange_exact by lia.
    rewrite decide_False by lia.
    destruct (Z.leb_spec (Z.min (S - Z.of_nat i * P) P) 0) as [|_]; [lia|].
    replace (Z.to_nat (ceil_div S P) - i)%nat
      with (Datatypes.S (Z.to_nat (ceil_div S P) - Datatypes.S i)) by lia.
    cbn [take imap]. f_equal.
    + unfold range_task. by rewrite Nat.add_0_r.
    + replace (Z.of_nat i + 1) with (Z.of_nat (Datatypes.S i)) by lia.
      rewrite IH by lia. apply imap_ext. intros k x _. cbn.
      f_equal. lia.
  - assert (Heq : Z.of_nat i = ceil_div S P) by lia.
    assert (Hnlt : ~ Z.of_nat i * P < S) by (by rewrite <- ceil_div_gt by lia).
    assert (Hprev : Z.of_nat i = 0 \/ (Z.of_nat i - 1) * P < S).
    { destruct (decide (Z.of_nat i = 0)); [by left|right].
      apply ceil_div_gt; lia. }
    pose proof (getRange_stop (Z.of_nat i) P S HS HP ltac:(lia)) as Hstop.
    destruct (getRange (Z.of_nat i) P S) as [off len]. cbn in Hstop.
    destruct (Z.leb_spec len 0); [|lia].
    by replace (Z.to_nat (ceil_div S P) - i)%nat with 0%nat by lia.
Qed.

Lemma generate_imap parts partSize fileSize fp :
  0 <= fileSize <= Int64.max_int -> 0 < partSize <= Int64.max_int ->
  generate 0 parts partSize fileSize fp
  = imap (range_task fp partSize fileSize)
      (take (Z.to_nat (ceil_div fileSize partSize)) parts).
Proof.
  intros HS HP.
  assert (0 <= ceil_div fileSize partSize).
  { unfold ceil_div. apply Z.div_pos; lia. }
  pose proof (generate_from parts 0 partSize fileSize fp HS HP) as Hgen.
  change (Z.of_nat 0) with 0 in Hgen. rewrite Hgen by lia.
  rewrite Nat.sub_0_r. by apply imap_ext.
Qed.

(** X1: for every file size and part size of int64 range, whatever the
    number of parts, the generator enqueues one task for each of the first
    [ceil (fileSize / partSize)] parts and none after, so their number is
    the smaller of that bound and the number of parts; the task at position
    [k] has the offset [k * partSize] and the length
    [min (fileSize - k * partSize) partSize].  The wrap-around of the
    product at the stopping index does no harm. *)
Theorem generate_spec parts partSize fileSize fp :
  0 <= fileSize <= Int64.max_int -> 0 < partSize <= Int64.max_int ->
  generate 0 parts partSize fileSize fp
  = imap (range_task fp partSize fileSize)
      (take (Z.to_nat (ceil_div fileSize partSize)) parts) /\
  length (generate 0 parts partSize fileSize fp)
  = Nat.min (Z.to_nat (ceil_div fileSize partSize)) (length parts).
Proof.
  intros HS HP. rewrite generate_imap by done.
  split; [done|]. by rewrite length_imap, length_take.
Qed.

Lemma generate_spec_witness :
  generate 0 (Parts (Upload Demo.plan)) 10 35 "tiles.mbtiles"
  = imap (range_task "tiles.mbtiles" 10 35) (take 4 (Parts (Upload Demo.plan))) /\
  length (generate 0 (Parts (Upload Demo.plan)) 10 35 "tiles.mbtiles") = 4%nat.
Proof.
  refine (generate_spec (Parts (Upload Demo.plan)) 10 35 "tiles.mbtiles" _ _);
    rewrite Int64Facts.max_int_eq; lia.
Defined.

(** X2: every range the generator enqueues lies inside the file and is not
    empty, and each range starts where the one before it ends. *)
Theorem generate_within_file parts partSize fileSize fp (k : nat) t :
  0 <= fileSize <= Int64.max_int -> 0 < partSize <= Int64.max_int ->
  generate 0 parts partSize fileSize fp !! k = Some t ->
  Offset t = Z.of_nat k * partSize /\
  0 < Length t <= partSize /\
  Offset t + Length t <= fileSize /\
  (forall t', generate 0 parts partSize fileSize fp !! S k = Some t' ->
     Offset t' = Offset t + Length t).
Proof.
  intros HS HP. rewrite generate_imap by done.
  rewrite !list_lookup_imap.
  destruct (take _ parts !! k) as [p|] eqn:Hk; [|done].
  intros [= <-]. cbn.
  assert (Hlt : Z.of_nat k < ceil_div fileSize partSize).
  { apply lookup_lt_Some in Hk. rewrite length_take in Hk. lia. }
  apply ceil_div_gt in Hlt as Hoff; [|lia].
  repeat split; try lia.
  intros t'.
  destruct (take _ parts !! S k) as [p'|] eqn:Hk'; [|done].
  intros [= <-]. cbn.
  assert (Hlt' : Z.of_nat (S k) < ceil_div fileSize partSize).
  { apply lookup_lt_Some in Hk'. rewrite length_take in Hk'. lia. }
  apply ceil_div_gt in Hlt'; lia.
Qed.

Lemma generate_within_file_witness :
  exists t,
    generate 0 (Parts (Upload Demo.plan)) 10 35 "tiles.mbtiles" !! 3%nat = Some t /\
    Offset t = 30 /\ 0 < Length t <= 10 /\ Offset t + Length t <= 35.
Proof.
  eexists. split; [reflexivity|].
  destruct (generate_within_file (Parts (Upload Demo.plan)) 10 35
              "tiles.mbtiles" 3 _
              ltac:(rewrite Int64Facts.max_int_eq; lia)
              ltac:(rewrite Int64Facts.max_int_eq; lia) eq_refl)
    as (Hoff & Hlen & Hend & _).
  split; [exact Hoff|]. split; [exact Hlen|exact Hend].
Defined.

Lemma sum_range_tasks fp partSize fileSize (parts : list uploadPart) :
  forall i : nat,
  0 < partSize ->
  Z.of_nat (i + length parts) <= ceil_div fileSize partSize ->
  sum_Z (Length <$> imap (fun k => range_task fp partSize fileSize (i + k)) parts)
  = Z.min fileSize (Z.of_nat (i + length parts) * partSize)
    - Z.min fileSize (Z.of_nat i * partSize).
Proof.
  induction parts as [|p parts IH]; intros i HP Hi.
  - cbn. rewrite Nat.add_0_r. unfold sum_Z. simpl. lia.
  - cbn [imap fmap list_fmap length]. unfold sum_Z. cbn [foldr]. fold (sum_Z).
    assert (Hlt : Z.of_nat i < ceil_div fileSize partSize) by (cbn in Hi; lia).
    apply ceil_div_gt in Hlt; [|done].
    erewrite (imap_ext _ (fun k => range_task fp partSize fileSize (S i + k)));
      [|intros k x _; cbn; f_equal; lia].
    unfold sum_Z in IH. rewrite IH by (cbn in *; lia). cbn [range_task Length].
    rewrite Nat.add_0_r.
    replace (Z.of_nat (S i + length parts)) with (Z.of_nat (i + S (length parts)))
      by lia.
    replace (Z.of_nat (S i)) with (Z.of_nat i + 1) by lia.
    lia.
Qed.

(** X3: the lengths of the enqueued ranges add up to the whole file when
    the plan has at least [ceil (fileSize / partSize)] parts; with fewer
    parts the generator stops after the last part and only the first
    [length parts * partSize] bytes are covered. *)
Theorem generate_covers parts partSize fileSize fp :
  0 <= fileSize <= Int64.max_int -> 0 < partSize <= Int64.max_int ->
  sum_Z (Length <$> generate 0 parts partSize fileSize fp)
  = Z.min fileSize (Z.of_nat (length parts) * partSize).
Proof.
  intros HS HP. rewrite generate_imap by done.
  assert (Hc : 0 <= ceil_div fileSize partSize).
  { unfold ceil_div. apply Z.div_pos; lia. }
  pose proof (sum_range_tasks fp partSize fileSize
                (take (Z.to_nat (ceil_div fileSize partSize)) parts) 0) as Hsum.
  cbn [Nat.add] in Hsum.
  erewrite (imap_ext _ (range_task fp partSize fileSize)) in Hsum;
    [|by intros].
  rewrite Hsum; [|lia|rewrite length_take; lia].
  rewrite length_take. change (Z.of_nat 0 * partSize) with 0.
  destruct (decide (length parts <= Z.to_nat (ceil_div fileSize partSize))%nat)
    as [Hle|Hgt].
  - rewrite Nat.min_r by lia. lia.
  - rewrite Nat.min_l by lia. rewrite Z2Nat.id by lia.
    assert (~ ceil_div fileSize partSize < ceil_div fileSize partSize) as Hn by lia.
    rewrite ceil_div_gt in Hn by lia.
    assert (ceil_div fileSize partSize * partSize
            <= Z.of_nat (length parts) * partSize) by nia.
    lia.
Qed.

Lemma generate_covers_witness :
  sum_Z (Length <$> generate 0 (Parts (Upload Demo.plan)) 10 35 "tiles.mbtiles")
  = 35 /\
  sum_Z (Length <$> generate 0 (take 2 (Parts (Upload Demo.plan))) 10 35
                      "tiles.mbtiles") = 20.
Proof.
  split.
  - refine (generate_covers (Parts (Upload Demo.plan)) 10 35 "tiles.mbtiles" _ _);
      rewrite Int64Facts.max_int_eq; lia.
  - refine (generate_covers (take 2 (Parts (Upload Demo.plan))) 10 35
              "tiles.mbtiles" _ _);
      rewrite Int64Facts.max_int_eq; lia.
Defined.

(** X4: the generator enqueues nothing exactly when the plan has no parts,
    the part size is not positive, or the file is empty. *)
Theorem generate_nil parts partSize fileSize fp :
  Int64.in_range fileSize ->
  generate 0 parts partSize fileSize fp = []
  <-> parts = [] \/ partSize <= 0 \/ fileSize <= 0.
Proof.
  intros HS. destruct parts as [|p parts]; [by split; auto|].
  cbn [generate]. rewrite getRange_unfold.
  change (Int64.mul 0 partSize) with 0.
  destruct (decide (partSize <= 0)); [by split; auto|].
  destruct (decide (fileSize <= 0)); [by split; auto|].
  rewrite Int64Facts.sub_exact by (by rewrite Z.sub_0_r).
  destruct (Z.leb_spec (Z.min (fileSize - 0) partSize) 0); [lia|].
  split; [done|]. intros [|[|]]; done || lia.
Qed.

Lemma generate_nil_witness :
  generate 0 (Parts (Upload Demo.plan)) 10 0 "empty.mbtiles" = [].
Proof.
  apply (generate_nil (Parts (Upload Demo.plan)) 10 0 "empty.mbtiles").
  - unfold Int64.in_range.
    rewrite Int64Facts.min_int_eq, Int64Facts.max_int_eq. lia.
  - right. right. lia.
Defined.

(** ** The result collector, continued *)

(** The response delivered last among those with the part ID [id]. *)
Definition last_delivered (id : Z) (delivered : list uploadTaskResponse)
  : option uploadTaskResponse :=
  last (filter (fun r => PartID r = id) delivered).

Lemma collect_snoc delivered r :
  collect (delivered ++ [r]) = <[fmt_Sprint (PartID r) := r]> (collect delivered).
Proof. unfold collect. by rewrite foldl_app. Qed.

Lemma collect_lookup delivered id :
  collect delivered !! fmt_Sprint id = last_delivered id delivered.
Proof.
  unfold last_delivered.
  induction delivered as [|r delivered IH] using rev_ind; [done|].
  rewrite collect_snoc, filter_app, lookup_insert.
  destruct (decide (PartID r = id)) as [Heq|Hne].
  - rewrite decide_True by congruence.
    rewrite filter_cons_True by exact Heq. by rewrite filter_nil, last_snoc.
  - rewrite decide_False by (intros Heq%(inj fmt_Sprint); done).
    rewrite filter_cons_False by (simpl; congruence).
    by rewrite filter_nil, app_nil_r.
Qed.

(** X5: the collector keeps, for each part ID, the response that was
    delivered last, and it has no entry exactly for the part IDs that were
    not delivered. *)
Theorem collect_last_wins delivered id :
  collect delivered !! fmt_Sprint id = last_delivered id delivered /\
  (collect delivered !! fmt_Sprint id = None <-> id ∉ PartID <$> delivered).
Proof.
  split; [apply collect_lookup|].
  rewrite collect_lookup. unfold last_delivered.
  rewrite last_None. split.
  - intros Hnil (r & -> & Hin)%list_elem_of_fmap.
    assert (Hr : r ∈ filter (fun r' => PartID r' = PartID r) delivered)
      by (by apply list_elem_of_filter).
    rewrite Hnil in Hr. by apply elem_of_nil in Hr.
  - intros Hnot.
    destruct (filter _ delivered) as [|r l] eqn:Hf; [done|].
    assert (Hr : r ∈ filter (fun r' => PartID r' = id) delivered)
      by (rewrite Hf; apply list_elem_of_here).
    apply list_elem_of_filter in Hr as [Hid Hin].
    destruct Hnot. apply list_elem_of_fmap. by exists r.
Qed.

Section UploadResult.
Context `{Env}.

(** X6: a successful [Client.upload] returns one part per part ID that was
    delivered, namely the response delivered last for that ID: duplicates
    are dropped, nothing else is added, and the number of parts does not
    depend on the number of tasks. *)
Theorem upload_parts_last_delivered ir fp st res st' :
  Client.upload ir fp st = (Ret (res, None), st') ->
  let responses :=
    delivered (run_pool (issued st)
                 (generate 0 (Parts (Upload ir)) (PartSize (Upload ir))
                    (Size ir) fp)) in
  result_ID res = ID ir /\
  result_Type res = ingestUploadTypeS3MultiPart /\
  NoDup (result_Parts res) /\
  (forall r, r ∈ result_Parts res
             <-> last_delivered (PartID r) responses = Some r) /\
  (length (result_Parts res) <= length responses)%nat.
Proof.
  unfold Client.upload. cbv zeta.
  destruct (wp_closed st); [done|].
  set (run := run_pool (issued st) _). destruct (waitErr run); [done|].
  intros [= <- _]. cbn [result_Parts result_ID result_Type newUploadResult].
  split; [done|]. split; [done|].
  pose proof (collect_keyed (delivered run)) as Hkeyed.
  assert (Hperm : slices_SortFunc cmpPartID (maps_Values (collect (delivered run)))
                  ≡ₚ (map_to_list (collect (delivered run))).*2).
  { unfold slices_SortFunc. by rewrite merge_sort_Permutation, maps_Values_perm. }
  split; [|split].
  - rewrite Hperm. apply (NoDup_fmap_1 PartID). by apply keyed_values_NoDup.
  - intros r. rewrite Hperm, <- collect_lookup. split.
    + intros ([k r'] & -> & Hin)%list_elem_of_fmap. cbn.
      apply elem_of_map_to_list in Hin. by rewrite <- (Hkeyed _ _ Hin).
    + intros Hr. apply list_elem_of_fmap. exists (fmt_Sprint (PartID r), r).
      split; [done|]. by apply elem_of_map_to_list.
  - rewrite Hperm, length_fmap.
    clear Hperm Hkeyed. generalize (delivered run). intros l.
    induction l as [|r l IH] using rev_ind; [done|].
    rewrite collect_snoc, length_app. cbn.
    destruct (collect l !! fmt_Sprint (PartID r)) as [r'|] eqn:Hl.
    + rewrite <- (insert_delete_eq (collect l)) at 1.
      rewrite map_to_list_insert by apply lookup_delete_eq.
      cbn. rewrite <- (insert_delete_id (collect l) _ _ Hl) in IH at 1.
      rewrite map_to_list_insert in IH by apply lookup_delete_eq.
      cbn in IH. lia.
    + rewrite map_to_list_insert by done. cbn. lia.
Qed.


End UploadResult.

Lemma upload_parts_last_delivered_witness :
  let E := Demo.env "upload" "completed" None false in
  exists res st',
    Client.upload Demo.plan "tiles.mbtiles" no_requests = (Ret (res, None), st') /\
    NoDup (result_Parts res) /\ length (result_Parts res) = 4%nat.
Proof.
  intros E. eexists _, _. split; [vm_compute; reflexivity|].
  split; [|reflexivity].
  eapply (upload_parts_last_delivered (H := E) Demo.plan "tiles.mbtiles"
            no_requests).
  vm_compute. reflexivity.
Defined.


(** ** The orchestrator, continued *)

Section Runs.
Context `{Env}.

(** The plan of a run: the file's metadata and the decoded answer to the
    plan request, when validation passes and the service answers with a
    decodable response. *)
Definition plan_of (id fp : string) (st : ClientState)
  : option (FileInfo * IngestResponse) :=
  match os_Stat fp with
  | inl info =>
      if IsDir info then None
      else
        match Execute (issued st)
                (Client.ingest_request
                   (newIngestRequest id (Name info) (FileSize info))) with
        | inr resp =>
            if IsError resp then None
            else match json_Unmarshal (RespBody resp) with
                 | (ir, None) => Some (info, ir)
                 | (_, Some _) => None
                 end
        | inl _ => None
        end
  | inr _ => None
  end.

(** The request that asks for the plan. *)
Definition plan_request (id : string) (info : FileInfo) : Request :=
  Client.ingest_request (newIngestRequest id (Name info) (FileSize info)).

(** What is left of [process] once the plan is there. *)
Definition after_plan (ir : IngestResponse) (fp : string)
  : M (IngestResponse * option error) :=
  let* (uresp, err) := Client.upload ir fp in
  match err with
  | Some err =>
      ret (IngestResponse_zero, Some (UploadFailedError (ID ir) (Some err)))
  | None =>
      let* (presp, err) := Client.finalize uresp in
      match err with
      | Some err =>
          ret (IngestResponse_zero, Some (UploadFailedError (ID ir) (Some err)))
      | None => ret (presp, None)
      end
  end.

Lemma process_planned id fp st info ir :
  plan_of id fp st = Some (info, ir) ->
  Client.process id fp st
  = if decide (State ir = "failed")
    then (Ret (IngestResponse_zero, Some (UploadFailedError (ID ir) None)),
          issue [plan_request id info] st)
    else after_plan ir fp (issue [plan_request id info] st).
Proof.
  unfold plan_of, Client.process, fileInfo, plan_request.
  destruct (os_Stat fp) as [info'|]; [|done].
  destruct (IsDir info'); [done|].
  cbn [os_IsNotExist]. cbv iota.
  unfold bind at 1. unfold Client.ingest, bind at 1, Client.execute, ret.
  destruct (Execute _ _) as [|resp]; [done|].
  destruct (IsError resp); [done|].
  destruct (json_Unmarshal _) as [ir' [uerr|]]; [done|].
  intros [= -> ->]. by case_decide.
Qed.

Lemma process_unplanned id fp st out st' :
  plan_of id fp st = None ->
  Client.process id fp st = (out, st') ->
  match out with
  | Ret (r, Some err) => r = IngestResponse_zero /\ errors_As err = None
  | Ret (_, None) => False
  | Panic _ => st' = st
  end.
Proof.
  unfold plan_of, Client.process, fileInfo.
  destruct (os_Stat fp) as [info|serr].
  2:{ intros _. destruct (os_IsNotExist (Some serr)); by intros [= <- <-]. }
  destruct (IsDir info); [by intros _ [= <- <-]|].
  cbn [os_IsNotExist]. cbv iota.
  pose proof (ingest_cases (newIngestRequest id (Name info) (FileSize info)) st)
    as Hing. cbv zeta in Hing.
  unfold bind at 1.
  destruct (Execute _ _) as [err|resp].
  { destruct Hing as [-> Has]. by intros _ [= <- <-]. }
  destruct (IsError resp).
  { destruct Hing as (err & -> & Has). by intros _ [= <- <-]. }
  destruct (json_Unmarshal _) as [ir [uerr|]]; [|done].
  destruct Hing as [-> Has]. by intros _ [= <- <-].
Qed.


(** X9: when everything succeeds, the run issues exactly the plan request,
    the workers' PUT requests and one finalize request, in this order; the
    finalize request carries the plan's ID and the parts in strictly
    ascending order of part ID; the run returns what finalize decoded. *)
Theorem successful_run_requests id fp st info ir fresp presp :
  plan_of id fp st = Some (info, ir) ->
  State ir <> "failed" ->
  wp_closed st = false ->
  let run := run_pool (issued st ++ [plan_request id info])
               (generate 0 (Parts (Upload ir)) (PartSize (Upload ir))
                  (Size ir) fp) in
  let ur := newUploadResult (ID ir)
              (slices_SortFunc cmpPartID (maps_Values (collect (delivered run)))) in
  let puts := Client.put_request <$> processed run in
  waitErr run = None ->
  Execute (issued st ++ [plan_request id info] ++ puts)
    (Client.finalize_request ur) = inr fresp ->
  IsError fresp = false ->
  json_Unmarshal (RespBody fresp) = (presp, None) ->
  State presp <> "failed" ->
  Client.Update id fp st
  = (Ret (presp, None),
     {| issued := issued st ++ [plan_request id info] ++ puts
                  ++ [Client.finalize_request ur];
        wp_closed := true |}) /\
  StronglySorted Z.lt (PartID <$> result_Parts ur).
Proof.
  intros Hplan Hstate Hopen run ur puts Hwait Hex Hok Hjs Hfinal.
  split;
    [|exact (proj1 (sorted_values_spec (delivered run) _ (maps_Values_perm _)))].
  pose proof (withCancel_cases Client.process id fp st) as Hcases.
  rewrite (process_planned _ _ _ _ _ Hplan), decide_False in Hcases by done.
  unfold after_plan, bind at 1, Client.upload in Hcases. cbv zeta in Hcases.
  cbn [issue issued wp_closed] in Hcases. rewrite Hopen in Hcases.
  fold run in Hcases. rewrite Hwait in Hcases. fold ur in Hcases.
  unfold bind, Client.finalize, bind, Client.execute, ret in Hcases.
  cbn [issue issued wp_closed] in Hcases. fold puts in Hcases.
  rewrite <- app_assoc in Hcases. rewrite Hex, Hok, Hjs in Hcases.
  rewrite decide_False in Hcases by done.
  unfold Client.Update. rewrite Hcases. unfold issue. cbn [issued wp_closed].
  by rewrite <- !app_assoc.
Qed.

(** X10: a run never reports success with a response in the state
    "failed", and [process] never returns data together with an error:
    its response is the zero value whenever it fails. *)
Theorem run_result_consistent id fp st :
  (forall ir st', Client.Update id fp st = (Ret (ir, None), st') ->
     State ir <> "failed") /\
  (forall r err st', Client.process id fp st = (Ret (r, Some err), st') ->
     r = IngestResponse_zero).
Proof.
  assert (Hproc : forall r err st',
            Client.process id fp st = (Ret (r, err), st') ->
            match err with
            | None => State r <> "failed"
            | Some _ => r = IngestResponse_zero
            end).
  { intros r err st' Hrun.
    destruct (plan_of id fp st) as [[info ir]|] eqn:Hplan.
    2:{ pose proof (process_unplanned _ _ _ _ _ Hplan Hrun) as Hnone.
        cbn in Hnone. destruct err; [by destruct Hnone|done]. }
    rewrite (process_planned _ _ _ _ _ Hplan) in Hrun.
    case_decide; [by injection Hrun as <- <- _|].
    unfold after_plan, bind at 1 in Hrun.
    destruct (Client.upload ir fp _) as [[[uresp [uerr|]]|msg] st2];
      [by injection Hrun as <- <- _| |done].
    unfold bind, Client.finalize, bind, Client.execute, ret in Hrun.
    destruct (Execute _ _) as [|fresp]; [by injection Hrun as <- <- _|].
    destruct (IsError fresp); [by injection Hrun as <- <- _|].
    destruct (json_Unmarshal _) as [presp [ferr|]];
      [by injection Hrun as <- <- _|].
    case_decide; by injection Hrun as <- <- _. }
  split.
  - intros ir st' Hrun. unfold Client.Update in Hrun.
    pose proof (withCancel_cases Client.process id fp st) as Hcases.
    destruct (Client.process id fp st) as [[[r [err|]]|msg] st1] eqn:Hp.
    + destruct (errors_As err) as [[uid e]|]; [|congruence].
      destruct (Client.cancel uid st1) as [[[ir' [cerr|]]|msg] st2]; congruence.
    + rewrite Hcases in Hrun. injection Hrun as <- _.
      apply (Hproc r None st1 eq_refl).
    + congruence.
  - intros r err st' Hrun. apply (Hproc r (Some err) st' Hrun).
Qed.

(** X11: [withCancel] changes neither success nor failure.  A successful
    run passes through untouched; for a failed run it returns an error that
    wraps the run's error, in which [errors.As] finds what it found in the
    run's error, and the only request it adds is the cancel request, after
    everything the run issued. *)
Theorem withCancel_transparent (run : Client.processorFn) id fp st :
  (forall ir st1, run id fp st = (Ret (ir, None), st1) ->
     Client.withCancel run id fp st = (Ret (ir, None), st1)) /\
  (forall ir err st1, run id fp st = (Ret (ir, Some err), st1) ->
     exists ir' err' st',
       Client.withCancel run id fp st = (Ret (ir', Some err'), st') /\
       err ∈ chain err' /\ errors_As err' = errors_As err /\
       match errors_As err with
       | Some (uid, _) => st' = issue [Client.cancel_request uid] st1
       | None => st' = st1
       end).
Proof.
  pose proof (withCancel_cases run id fp st) as Hcases.
  assert (Hhead : forall x, x ∈ chain x) by (intros []; apply list_elem_of_here).
  split.
  - intros ir st1 Hrun. by rewrite Hrun in Hcases.
  - intros ir err st1 Hrun. rewrite Hrun in Hcases.
    destruct (errors_As err) as [[uid e]|] eqn:Has.
    + destruct (Client.cancel uid st1) as [cout st2] eqn:Hcancel.
      apply cancel_issues in Hcancel as [-> [[ir' cerr] ->]].
      destruct cerr as [cerr|]; eexists _, _, _; (split; [exact Hcases|]).
      * cbn [chain errors_As]. rewrite Has. repeat split.
        apply list_elem_of_further, elem_of_app. left. apply Hhead.
      * cbn [chain errors_As]. repeat split; [|done].
        apply list_elem_of_further, Hhead.
    + eexists _, _, _. split; [exact Hcases|].
      cbn [chain errors_As]. repeat split; [|done].
      apply list_elem_of_further, Hhead.
Qed.

End Runs.

Section Classification.
Context `{Env}.



End Classification.


(** Everything succeeds: plan, four PUTs, finalize with the parts 1 to 4. *)
Lemma successful_run_requests_witness :
  let E := Demo.env "upload" "completed" None false in
  exists presp st',
    Client.Create "tiles.mbtiles" no_requests = (Ret (presp, None), st') /\
    State presp = "completed" /\
    Method <$> issued st' = ["POST"; "PUT"; "PUT"; "PUT"; "PUT"; "POST"] /\
    (Body <$> last (issued st'))
    = Some (ResultBody
              (newUploadResult "ing-1"
                 [ {| PartID := 1; ETag := "etag-1" |};
                   {| PartID := 2; ETag := "etag-2" |};
                   {| PartID := 3; ETag := "etag-3" |};
                   {| PartID := 4; ETag := "etag-4" |} ])).
Proof.
  intros E.
  edestruct (successful_run_requests (H := E) "" "tiles.mbtiles" no_requests)
    as [Hrun _].
  - vm_compute. reflexivity.
  - discriminate.
  - reflexivity.
  - vm_compute. reflexivity.
  - vm_compute. reflexivity.
  - reflexivity.
  - vm_compute. reflexivity.
  - discriminate.
  - eexists _, _. split; [exact Hrun|]. repeat split; vm_compute; reflexivity.
Defined.

(** The service reports "failed" at finalize: the run does not succeed. *)
Lemma run_result_consistent_witness :
  let E := Demo.env "upload" "completed" None false in
  let F := Demo.env "upload" "failed" None false in
  (exists ir st',
     Client.Update (H := E) "" "tiles.mbtiles" no_requests = (Ret (ir, None), st') /\
     State ir <> "failed") /\
  (exists err st',
     Client.process (H := F) "" "tiles.mbtiles" no_requests
     = (Ret (IngestResponse_zero, Some err), st')).
Proof.
  intros E F. split.
  - destruct (Client.Update (H := E) "" "tiles.mbtiles" no_requests)
      as [out st'] eqn:Hrun.
    pose proof (proj1 (run_result_consistent (H := E) "" "tiles.mbtiles"
                         no_requests)) as Hok.
    rewrite Hrun in Hok. vm_compute in Hrun. injection Hrun as <- <-.
    eexists _, _. split; [reflexivity|]. by eapply Hok.
  - destruct (Client.process (H := F) "" "tiles.mbtiles" no_requests)
      as [out st'] eqn:Hrun.
    pose proof (proj2 (run_result_consistent (H := F) "" "tiles.mbtiles"
                         no_requests)) as Hzero.
    rewrite Hrun in Hzero. vm_compute in Hrun. injection Hrun as <- <-.
    eexists _, _. by rewrite <- (Hzero _ _ _ eq_refl).
Defined.

(** A failed run behind [withCancel]: the run's error is wrapped and one
    cancel request follows the run's requests. *)
Lemma withCancel_transparent_witness :
  let E := Demo.env "upload" "completed" (Some (errorString "boom")) false in
  exists ir err st1 ir' err' st',
    Client.process "" "tiles.mbtiles" no_requests = (Ret (ir, Some err), st1) /\
    Client.withCancel Client.process "" "tiles.mbtiles" no_requests
    = (Ret (ir', Some err'), st') /\
    err ∈ chain err' /\
    st' = issue [Client.cancel_request "ing-1"] st1.
Proof.
  intros E.
  destruct (Client.process "" "tiles.mbtiles" no_requests) as [out st1] eqn:Hrun.
  pose proof (proj2 (withCancel_transparent (H := E) Client.process ""
                       "tiles.mbtiles" no_requests)) as Hwrap.
  rewrite Hrun in Hwrap. vm_compute in Hrun. injection Hrun as <- <-.
  destruct (Hwrap _ _ _ eq_refl) as (ir' & err' & st' & Hc & Hin & _ & Hst).
  eexists _, _, _, ir', err', st'. split; [reflexivity|].
  split; [exact Hc|]. split; [exact Hin|exact Hst].
Defined.



(** ** The worker pool, continued *)

Section Queue.
Import pool.
Context {T : Type}.
Implicit Types (p : pool T) (ev : event T) (evs : list (event T)).

(** The tasks sent by the calls of [Enqueue] in a schedule, in order. *)
Definition enqueued evs : list T :=
  omap (fun ev => match ev with CallEnqueue t _ => Some t | _ => None end) evs.

(** The task a worker takes in one step, if any: from the buffer, or
    straight from the sender. *)
Definition taken p ev : list T :=
  match ev with
  | Receive _ => take 1 (buf (tasks p))
  | CallEnqueue t (Some _) => [t]
  | _ => []
  end.

(** The tasks the workers took during a schedule, in the order in which
    they took them. *)
Fixpoint dispatched p evs : list T :=
  match evs with
  | [] => []
  | ev :: evs' =>
      match step p ev with
      | Next p' => taken p ev ++ dispatched p' evs'
      | _ => []
      end
  end.









End Queue.

Section QueueFacts.
Import pool.
Context {T : Type}.
Implicit Types (p : pool T) (ev : event T) (evs : list (event T)).

Lemma step_fifo p ev p' :
  step p ev = Next p' ->
  buf (tasks p) ++ enqueued [ev] = taken p ev ++ buf (tasks p').
Proof.
  intros Hstep%step_Next.
  destruct Hstep as [ | | |t w _ _ Hbuf| |w t rest _ Hbuf| | | | ]; cbn;
    rewrite ?Hbuf, ?app_nil_r; done.
Qed.







Lemma newPool_unstarted options p0 :
  newPool options = Ret p0 ->
  unstarted p0 /\ buf (tasks p0) = [] /\ closed (tasks p0) = false /\
  0 <= queueSize (config p0).
Proof.
  unfold newPool. cbv zeta. case Z.ltb_spec; [done|].
  intros Hq [= <-]. by repeat split.
Qed.




Lemma step_no_workers p ev p' :
  step p ev = Next p' ->
  concurrency (config p) <= 0 ->
  workers p = [] -> returned p = [] -> group_err p = None ->
  concurrency (config p') <= 0 /\ workers p' = [] /\ returned p' = [] /\
  group_err p' = None /\ taken p ev = [].
Proof.
  intros Hstep%step_Next Hc Hw Hr Hg.
  destruct Hstep as [err|Hst| |t w _ Hl _| |w t rest Hl _|w Hl _ _
                     |w err Hl _|w t err Hl|w t Hl];
    try (rewrite Hw in Hl; done); cbn; try done.
  repeat split; try done. by replace (Z.to_nat _) with 0%nat by lia.
Qed.

(** X17: with a concurrency of zero or less [Start] spawns no worker and
    returns nil at once, whatever has been enqueued: no task is ever taken,
    and the tasks stay in the queue. *)
Theorem no_workers_no_work options p0 evs p :
  newPool options = Ret p0 -> concurrency (config p0) <= 0 ->
  run p0 evs = Next p -> started p = true ->
  Start_returns p = Some None /\ dispatched p0 evs = [] /\
  buf (tasks p) = enqueued evs.
Proof.
  intros (Hfresh & Hbuf0 & _)%newPool_unstarted Hc Hrun Hst.
  destruct Hfresh as (_ & Hw0 & Hg0 & Hr0 & _).
  assert (Hall : workers p = [] /\ group_err p = None /\
                 buf (tasks p0) ++ enqueued evs = buf (tasks p) /\
                 dispatched p0 evs = []).
  { clear Hbuf0 Hst. revert p0 Hc Hw0 Hg0 Hr0 Hrun.
    induction evs as [|ev evs IH]; intros p0 Hc Hw0 Hg0 Hr0;
      cbn [run dispatched].
    - intros [= <-]. by rewrite app_nil_r.
    - destruct (step p0 ev) as [p1| |] eqn:Hstep; [|done|done].
      intros Hrun.
      destruct (step_no_workers _ _ _ Hstep Hc Hw0 Hr0 Hg0)
        as (Hc1 & Hw1 & Hr1 & Hg1 & Htaken).
      destruct (IH p1 Hc1 Hw1 Hg1 Hr1 Hrun) as (Hw & Hg & Hbuf & Hdisp).
      pose proof (step_fifo _ _ _ Hstep) as Hf1.
      rewrite Htaken in *. cbn [app] in Hf1.
      repeat split; try done.
      rewrite <- Hbuf, <- Hf1, <- app_assoc.
      unfold enqueued. by rewrite <- omap_app. }
  destruct Hall as (Hw & Hg & Hbuf & Hdisp).
  rewrite Hbuf0 in Hbuf. cbn in Hbuf.
  unfold Start_returns. by rewrite Hst, Hw, Hg.
Qed.

Lemma step_bound p ev p' :
  step p ev = Next p' ->
  config p' = config p /\
  (Z.of_nat (length (buf (tasks p))) <= queueSize (config p) ->
   Z.of_nat (length (buf (tasks p'))) <= queueSize (config p)).
Proof.
  destruct ev as [err| | |t [w|]|w|w|w|w err].
  5:{ cbn. unfold Enqueue. destruct (closed (tasks p)); [done|].
      case Z.ltb_spec; [|done]. intros Hlt [= <-]. cbn.
      split; [done|]. rewrite length_app. cbn. lia. }
  all: intros Hstep%step_Next; inversion Hstep; subst; cbn; split; try done.
  all: try match goal with H : buf (tasks _) = _ |- _ => rewrite H end.
  all: cbn; lia.
Qed.

(** X15: the queue never holds more tasks than the configured queue size,
    which no schedule changes; with a queue size of zero the buffer stays
    empty, and a task only passes from [Enqueue] straight to a waiting
    worker. *)
Theorem queue_bound options p0 evs p :
  newPool options = Ret p0 -> run p0 evs = Next p ->
  config p = config p0 /\
  0 <= Z.of_nat (length (buf (tasks p))) <= queueSize (config p0).
Proof.
  intros (_ & Hbuf0 & _ & Hq)%newPool_unstarted Hrun.
  assert (Hle : Z.of_nat (length (buf (tasks p0))) <= queueSize (config p0))
    by (rewrite Hbuf0; cbn; lia).
  clear Hbuf0 Hq. revert p0 Hle Hrun.
  induction evs as [|ev evs IH]; intros p0 Hle; cbn [run].
  - intros [= <-]. split; [done|lia].
  - destruct (step p0 ev) as [p1| |] eqn:Hstep; [|done|done].
    intros Hrun. destruct (step_bound _ _ _ Hstep) as [Hcfg Hb].
    destruct (IH p1) as [Hcfg' Hb']; [rewrite Hcfg; auto|done|].
    rewrite <- Hcfg. split; [congruence|done].
Qed.

(** X18: [Stop] can be called once: after a call of [Stop], whatever
    happens in between, a second call panics on the closed channel. *)
Theorem Stop_twice_panics p0 evs1 evs2 p :
  run p0 (evs1 ++ CallStop :: evs2) = Next p ->
  step p CallStop = Panicked "close of closed channel" /\
  run p0 (evs1 ++ CallStop :: evs2 ++ [CallStop])
  = Panicked "close of closed channel".
Proof.
  intros Hrun.
  assert (Hclosed : closed (tasks p) = true).
  { rewrite run_app in Hrun.
    destruct (run p0 evs1) as [p1| |]; [|done|done].
    cbn [run step] in Hrun. unfold Stop in Hrun.
    destruct (closed (tasks p1)); [done|].
    by apply run_closed_stays in Hrun. }
  assert (Hstep : step p CallStop = Panicked "close of closed channel").
  { cbn. unfold Stop. by rewrite Hclosed. }
  split; [done|].
  change (evs1 ++ CallStop :: evs2 ++ [CallStop])
    with (evs1 ++ (CallStop :: evs2) ++ [CallStop]).
  by rewrite app_assoc, run_snoc, Hrun.
Qed.




End QueueFacts.

(** ** The upload processor

    [uploadProcessor.Process] for one task: [ctx_Err] is [ctx.Err()] at the
    call, [os_Open] the outcome of [os.Open] and [Header_ETag] the ETag
    header of a response.  The result is the error returned, the requests
    issued and the responses sent on the task's result channel.  The
    channel has room for one response per part and is closed only after
    every worker has returned, so within one upload the send neither blocks
    nor panics. *)
Section Processor.
Context `{Env}.
Variable os_Open : string -> option error.
Variable Header_ETag : Response -> string.

Record Processing := {
  proc_err : option error;
  proc_requests : list Request;
  proc_sent : list uploadTaskResponse
}.

Definition Process (ctx_Err : option error) (log : list Request)
    (t : uploadTask) : Processing :=
  let fail err reqs :=
    {| proc_err := Some err; proc_requests := reqs; proc_sent := [] |} in
  let fp := FilePath t in
  let id := fmt_Sprint (part_PartID (task_part t)) in
  match ctx_Err with
  | Some err => fail (wrapError "processing upload: " err "") []
  | None =>
      let stat := os_Stat fp in
      if match stat with inl info => IsDir info | inr _ => false end
      then fail (errorString ("expected file " +:+ fmt_q fp
                              +:+ " to exist, but it is a directory")) []
      else if os_IsNotExist (match stat with
                             | inl _ => None
                             | inr err => Some err
                             end)
      then fail (errorString ("expected file " +:+ fmt_q fp
                              +:+ " to exist, but it does not")) []
      else
        match os_Open fp with
        | Some err =>
            fail (wrapError ("failed to open file at path '" +:+ fp +:+ "': ")
                    err "") []
        | None =>
            let req := Client.put_request t in
            match Execute log req with
            | inl err =>
                fail (wrapError ("sending part " +:+ id +:+ ": ") err "") [req]
            | inr resp =>
                if IsError resp
                then fail (errorString ("sending part " +:+ id
                                        +:+ ": %!w(<nil>)")) [req]
                else
                  let etag := Header_ETag resp in
                  if decide (etag = "")
                  then fail (errorString "empty etag in response header") [req]
                  else {| proc_err := None; proc_requests := [req];
                          proc_sent :=
                            [ {| PartID := part_PartID (task_part t);
                                 ETag := etag |} ] |}
            end
        end
  end.

(** X20: [Process] answers for one task.  It returns nil exactly when it
    has sent one response, which carries the task's part ID and a non-empty
    ETag, and then the PUT request for the task's byte range was answered
    without an error status; when it returns an error it has sent nothing.
    It issues at most the one PUT request, and none at all when the context
    is already done, the path is a directory or does not exist, or the file
    cannot be opened. *)
Theorem Process_contract ctx_Err log t :
  let r := Process ctx_Err log t in
  (proc_err r = None <->
   exists etag, etag <> "" /\
     proc_sent r = [ {| PartID := part_PartID (task_part t); ETag := etag |} ]) /\
  (proc_err r <> None -> proc_sent r = []) /\
  (proc_err r = None ->
   ctx_Err = None /\ os_Open (FilePath t) = None /\
   proc_requests r = [Client.put_request t] /\
   exists resp, Execute log (Client.put_request t) = inr resp /\
                IsError resp = false /\ Header_ETag resp <> "") /\
  (proc_requests r = [] \/ proc_requests r = [Client.put_request t]) /\
  (ctx_Err <> None \/ os_Open (FilePath t) <> None \/
   (exists info, os_Stat (FilePath t) = inl info /\ IsDir info = true) \/
   (exists msg, os_Stat (FilePath t) = inr (foreignError ErrNotExist msg)) ->
   proc_requests r = [] /\ proc_err r <> None).
Proof.
  cbv zeta. unfold Process.
  destruct ctx_Err as [cerr|];
    [|destruct (os_Stat (FilePath t)) as [info|serr] eqn:Hstat;
      [destruct (IsDir info) eqn:Hdir|
       destruct (os_IsNotExist (Some serr)) eqn:Hne];
      cbn [os_IsNotExist];
      try (destruct (os_Open (FilePath t)) as [oerr|] eqn:Hopen;
           [|destruct (Execute log (Client.put_request t)) as [xerr|resp] eqn:Hex;
             [|destruct (IsError resp) eqn:Herr; [|case_decide as Hetag]]])];
    cbn [proc_err proc_requests proc_sent]; repeat split;
    try done; try (by left); try (by right);
    try (by intros (? & ? & ?)); try (intros _; by eauto);
    try (by eexists);
    try match goal with
        | Hwhy : _ \/ _ |- _ =>
            destruct Hwhy as [?|[?|[(i & Hi & ?)|(msg & Hm)]]];
            simplify_eq; (done || congruence)
        end.
Qed.

End Processor.

(** ** Runs of the pool and of the processor on concrete schedules *)

Module DemoQueue.
Import pool.


(** No worker: a task is enqueued and [Start] is called. *)
Definition nobody : list (event string) := [ CallEnqueue "a" None; CallStart ].

End DemoQueue.


Lemma queue_bound_witness :
  let p0 := DemoPool.pool_of [pool.withPoolQueueSize 1] in
  let p := DemoPool.after p0 [pool.CallEnqueue "a" None] in
  pool.newPool [pool.withPoolQueueSize 1] = Ret p0 /\
  pool.run p0 [pool.CallEnqueue "a" None] = pool.Next p /\
  0 <= Z.of_nat (length (pool.buf (pool.tasks p))) <= 1 /\
  pool.step p (pool.CallEnqueue "b" None) = pool.Blocked.
Proof.
  intros p0 p.
  assert (Hnew : pool.newPool [pool.withPoolQueueSize 1] = Ret p0)
    by (vm_compute; reflexivity).
  assert (Hrun : pool.run p0 [pool.CallEnqueue "a" None] = pool.Next p)
    by (vm_compute; reflexivity).
  split; [exact Hnew|]. split; [exact Hrun|].
  split; [|vm_compute; reflexivity].
  exact (proj2 (queue_bound _ p0 _ p Hnew Hrun)).
Defined.


Lemma no_workers_no_work_witness :
  let options := [pool.withPoolConcurrency 0] in
  let p0 := DemoPool.pool_of options in
  let p := DemoPool.after p0 DemoQueue.nobody in
  pool.Start_returns p = Some None /\ pool.buf (pool.tasks p) = ["a"].
Proof.
  intros options p0 p.
  destruct (no_workers_no_work options p0 DemoQueue.nobody p)
    as (Hret & _ & Hbuf).
  - vm_compute. reflexivity.
  - vm_compute. discriminate.
  - vm_compute. reflexivity.
  - vm_compute. reflexivity.
  - split; [exact Hret|]. by rewrite Hbuf.
Defined.

Lemma Stop_twice_panics_witness :
  let p0 := DemoPool.pool_of [pool.withPoolConcurrency 2; pool.withPoolQueueSize 10] in
  pool.run p0 (DemoPool.two_workers ++ [pool.CallStop])
  = pool.Panicked "close of closed channel".
Proof.
  intros p0.
  refine (proj2 (Stop_twice_panics p0
            [pool.CallEnqueue "ok" None; pool.CallEnqueue "fail" None]
            (drop 3 DemoPool.two_workers)
            (DemoPool.after p0 DemoPool.two_workers) _)).
  vm_compute. reflexivity.
Defined.


Lemma Process_contract_witness :
  let E := Demo.env "upload" "completed" None false in
  let t := {| task_part := {| part_PartID := 4; part_URL := "u4" |};
              FilePath := "tiles.mbtiles"; Offset := 30; Length := 5 |} in
  let r := Process (fun _ => None) (fun _ => "etag-4") None [] t in
  proc_err r = None /\
  proc_requests r = [Client.put_request t] /\
  exists etag, proc_sent r = [ {| PartID := 4; ETag := etag |} ].
Proof.
  intros E t r.
  assert (Hnil : proc_err r = None) by reflexivity.
  pose proof (Process_contract (H := E) (fun _ => None) (fun _ => "etag-4")
                None [] t) as (Hsent & _ & Hreq & _).
  split; [exact Hnil|]. split.
  - exact (proj1 (proj2 (proj2 (Hreq Hnil)))).
  - destruct (proj1 Hsent Hnil) as (etag & _ & Hs). by exists etag.
Defined.
